(** * ERI data import: the reconciliation pipeline of [cgt_calc.parsers.eri]

    A shallow embedding of [src/cgt_calc/parsers/eri/data_import.py] and
    [src/cgt_calc/parsers/eri/model.py], and the properties of the merge
    ([validate_and_remove_duplicates]) and of the per-file import
    ([eri_import_from_file]).

    Conventions of the embedding:
    - a [datetime.date] is its (year, month, day) triple, compared
      lexicographically as Python does;
    - a finite [decimal.Decimal] is a coefficient and a power of ten;
    - the [dict] of the merge is a [gmap]; the list [result] grows at its end;
    - a Python exception is a constructor of [Exception]; code that can
      raise returns an [Outcome];
    - the file system and the console are an explicit [World] threaded
      through the import. *)

From Stdlib Require Import ZArith QArith Qabs Lia.
From stdpp Require Import gmap strings list fin_maps sorting.
From Stdlib Require Import Ascii.

Local Open Scope Z_scope.

(* ===================================================================== *)
(** ** Dates *)
(* ===================================================================== *)

Module Date.

Record t : Type := mk { year : Z; month : Z; day : Z }.

#[global] Instance eq_dec : EqDecision t.
Proof. solve_decision. Defined.

Definition to_triple (d : t) : Z * Z * Z := (year d, month d, day d).
Definition of_triple (p : Z * Z * Z) : t := mk p.1.1 p.1.2 p.2.

#[global] Instance countable : Countable t.
Proof.
  apply (inj_countable' to_triple of_triple). by intros [].
Defined.

(** [d1 < d2] of [datetime.date]: (year, month, day) lexicographically. *)
Definition ltb (d1 d2 : t) : bool :=
  (year d1 <? year d2)
  || ((year d1 =? year d2)
      && ((month d1 <? month d2)
          || ((month d1 =? month d2) && (day d1 <? day d2)))).

Definition lt (d1 d2 : t) : Prop :=
  year d1 < year d2
  ∨ (year d1 = year d2
     ∧ (month d1 < month d2 ∨ (month d1 = month d2 ∧ day d1 < day d2))).

(** non-decreasing order: [d1 <= d2] *)
Definition le (d1 d2 : t) : Prop := d1 = d2 ∨ lt d1 d2.

End Date.

(* ===================================================================== *)
(** ** Decimals *)
(* ===================================================================== *)

(** A finite [decimal.Decimal]: the number [coefficient * 10 ^ exponent]
    (the sign is the coefficient's). [Decimal("0.0001")] is
    [{| coefficient := 1; exponent := -4 |}]. *)
Record Decimal : Type := mkDecimal { coefficient : Z; exponent : Z }.

#[global] Instance Decimal_eq_dec : EqDecision Decimal.
Proof. solve_decision. Defined.

(** The number a [Decimal] denotes. *)
Definition dec_value (d : Decimal) : Q :=
  (inject_Z (coefficient d) * Qpower (10 # 1) (exponent d))%Q.

(* ===================================================================== *)
(** ** model.py *)
(* ===================================================================== *)

(** [EriTransaction]: a [BrokerTransaction] whose constructor fixes every
    field but [date], [isin], [price] and [currency]. [price] and [isin]
    are optional fields of the base class (the merge asserts that they are
    set), so they are options here. *)
Record EriTransaction : Type := mkEriTransaction {
  date : Date.t;
  isin : option string;
  price : option Decimal;
  currency : string;
}.

#[global] Instance EriTransaction_eq_dec : EqDecision EriTransaction.
Proof. solve_decision. Defined.

(** [@dataclass class EriParserOutput] *)
Record EriParserOutput : Type := mkEriParserOutput {
  transactions : list EriTransaction;
  output_file_name : string;
}.

(** Truth value of an [EriParserOutput] object, as [assert data] tests it:
    the dataclass defines neither [__bool__] nor [__len__], so every
    instance is true, whatever its [transactions] hold. *)
Definition EriParserOutput_bool (data : EriParserOutput) : bool := true.

(* ===================================================================== *)
(** ** Exceptions and outcomes *)
(* ===================================================================== *)

(** The message of a failed [assert], by the assertion it comes from. *)
Inductive AssertMessage : Type :=
| PriceNotSet (transaction : EriTransaction)
    (* "Transaction price not set for {transaction}" *)
| IsinNotSet (transaction : EriTransaction)
    (* "Transaction ISIN not set for {transaction}" *)
| CurrentPriceNotSet (current_transaction : EriTransaction)
    (* str(current_transaction) *)
| NotAFile (path : string)
    (* "Specified path {path} not a file!" *)
| NoTransactions (parser_name : string) (path : string)
    (* "ERI Parser {parser.name} emitted not transactions for {path}" *).

Inductive Exception : Type :=
| AssertionError (msg : AssertMessage)
| InvalidTransactionError
    (transaction : EriTransaction) (current_transaction : EriTransaction)
    (* "Duplicate same day ERI with different price from
        {current_transaction}" *)
| OtherError (what : string)
    (* anything a parser or the store reader raises *).

Inductive Outcome (A : Type) : Type :=
| Returns (a : A)
| Raises (e : Exception).
Arguments Returns {A} a.
Arguments Raises {A} e.

(** Sequencing: an exception ends the computation. The notations
    [x ← m; k] and ['(x, y) ← m; k] are those of [MBind]. *)
#[global] Instance Outcome_bind : MBind Outcome := λ A B k m,
  match m with
  | Returns a => k a
  | Raises e => Raises e
  end.

(* ===================================================================== *)
(** ** data_import.py: the merge *)
(* ===================================================================== *)

(** [Decimal("0.0001")] *)
Definition TOLERANCE : Decimal := {| coefficient := 1; exponent := -4 |}.

(** The dictionary key [(transaction.isin, transaction.date)]. *)
Definition key_of (transaction : EriTransaction) : option string * Date.t :=
  (isin transaction, date transaction).

(** Truth value of [transaction.isin]: [None] and [""] are false. *)
Definition isin_bool (i : option string) : bool :=
  match i with
  | None => false
  | Some s => negb (String.eqb s "")
  end.

(** [result.sort(key=lambda t: t.date)]: Python's sort is stable and
    compares keys with [<] only. A stable sort is determined by its input
    and the order, so it is given here as the stable insertion sort. *)
Fixpoint insert_by_date (x : EriTransaction) (l : list EriTransaction)
  : list EriTransaction :=
  match l with
  | [] => [x]
  | y :: l' =>
      if Date.ltb (date y) (date x) then y :: insert_by_date x l'
      else x :: y :: l'
  end.

Fixpoint sort_by_date (l : list EriTransaction) : list EriTransaction :=
  match l with
  | [] => []
  | x :: l' => insert_by_date x (sort_by_date l')
  end.

Section Merge.

(** [approx_equal] is imported from [cgt_calc.util], outside the two
    modules embedded here: the merge takes it as a parameter and calls it
    as [approx_equal(current_transaction.price, transaction.price,
    Decimal("0.0001"))]. *)
Variable approx_equal : Decimal → Decimal → Decimal → bool.

(** The state of the loop: [transaction_index] and [result]. *)
Definition MergeState : Type :=
  gmap (option string * Date.t) EriTransaction * list EriTransaction.

(** One iteration of the [for transaction in transactions] loop. *)
Definition merge_step (st : MergeState) (transaction : EriTransaction)
  : Outcome MergeState :=
  let '(transaction_index, result) := st in
  match price transaction with
  | None => Raises (AssertionError (PriceNotSet transaction))
  | Some new_price =>
      if negb (isin_bool (isin transaction))
      then Raises (AssertionError (IsinNotSet transaction))
      else
        let key := key_of transaction in
        match transaction_index !! key with
        | Some current_transaction =>
            match price current_transaction with
            | None =>
                Raises (AssertionError (CurrentPriceNotSet current_transaction))
            | Some current_price =>
                if approx_equal current_price new_price TOLERANCE
                then Returns (transaction_index, result) (* continue *)
                else Raises
                       (InvalidTransactionError transaction current_transaction)
            end
        | None =>
            Returns (<[key := transaction]> transaction_index,
                     result ++ [transaction])
        end
  end.

(** The whole loop, from a given state. *)
Fixpoint merge_loop (transactions : list EriTransaction) (st : MergeState)
  : Outcome MergeState :=
  match transactions with
  | [] => Returns st
  | transaction :: rest =>
      st' ← merge_step st transaction; merge_loop rest st'
  end.

Definition validate_and_remove_duplicates (transactions : list EriTransaction)
  : Outcome (list EriTransaction) :=
  '(_, result) ← merge_loop transactions (∅, []);
  Returns (sort_by_date result).

End Merge.

Arguments merge_step approx_equal st transaction : simpl never.

(** Modelled from the spec: [cgt_calc.util.approx_equal], which the merge
    imports and which is not among the embedded modules. The spec asks for
    prices "numerically equal within an absolute tolerance", the boundary
    included ("differing by exactly 0.0001 or less merge silently"):
    [|val_a - val_b| <= threshold], in exact arithmetic. *)
Definition approx_equal_spec (val_a val_b threshold : Decimal) : bool :=
  Qle_bool (Qabs (dec_value val_a - dec_value val_b)) (dec_value threshold).

(* ===================================================================== *)
(** ** data_import.py: importing one file *)
(* ===================================================================== *)

(** A row of a store file as [csv.writer] receives it: [COLUMNS], or the
    four cells [[isin, date.strftime(RAW_DATE_FORMAT), currency, price]]
    (the date cell stands for its formatted text). *)
Inductive CsvRow : Type :=
| HeaderRow
| DataRow (row_isin : option string) (row_date : Date.t)
    (row_currency : string) (row_price : option Decimal).

Inductive FileContent : Type :=
| Text (content : string)      (* a broker's file, read by the parsers *)
| Csv (rows : list CsvRow)     (* a store file *).

(** A line printed on the console. *)
Inductive Message : Type :=
| Processing (path : string)
    (* "Processing ERI file: {path}" *)
| Parsed (path : string) (parser_name : string) (found : nat)
    (* "ERI file {path} successfully parsed with {parser.name},
        transactions found: {len(data.transactions)}" *)
| NoParserFound (path : string)
    (* "WARNING: No ERI parser found for {path}" *)
| Printed (text : string)
    (* anything a parser prints *).

(** What the import reads and changes: the regular files, by path, and
    the console output so far. *)
Record World : Type := mkWorld {
  files : gmap string FileContent;
  stdout : list Message;
}.

(** [class EriParser]: a name and a [parse] method. [parse] is arbitrary
    Python: it may raise, and it may change the world; it returns [None]
    when the parser does not accept the file. *)
Record EriParser : Type := mkEriParser {
  name : string;
  parse : string → World → Outcome (option EriParserOutput) * World;
}.

Definition print (m : Message) (w : World) : World :=
  {| files := files w; stdout := stdout w ++ [m] |}.

(** [path.is_file()] *)
Definition is_file (path : string) (w : World) : bool :=
  bool_decide (is_Some (files w !! path)).

Definition data_row (transaction : EriTransaction) : CsvRow :=
  DataRow (isin transaction) (date transaction)
          (currency transaction) (price transaction).

(** [with output_path.open("w") as fout: ... writer.writerows(...)]: the
    file is replaced by the header and one row per transaction. *)
Definition write_rows (output_path : string)
    (transactions : list EriTransaction) (w : World) : World :=
  {| files := <[output_path := Csv (HeaderRow :: map data_row transactions)]>
                (files w);
     stdout := stdout w |}.

Section ImportFile.

Variable approx_equal : Decimal → Decimal → Decimal → bool.

(** [Path(RESOURCES.__file__).parent / "eri" / name]: where the package's
    resources are installed is not fixed by the code. *)
Variable resources_eri : string → string.

(** [read_eri_raw] is imported from [.raw], outside the embedded modules:
    it reads the store at a path and returns its transactions or raises;
    reading leaves the world as it is. *)
Variable read_eri_raw : string → World → Outcome (list EriTransaction).

(** Lines 89 to 111: the body of the loop once [parser.parse(path)] has
    returned [data], which is not [None]. *)
Definition import_parsed (parser : EriParser) (data : EriParserOutput)
    (path : string) (w : World) : Outcome unit * World :=
  if negb (EriParserOutput_bool data)
  then (Raises (AssertionError (NoTransactions (name parser) path)), w)
  else
    let w1 :=
      print (Parsed path (name parser) (length (transactions data))) w in
    let output_path := resources_eri (output_file_name data) in
    match read_eri_raw output_path w1 with
    | Raises e => (Raises e, w1)
    | Returns existing =>
        match validate_and_remove_duplicates approx_equal
                (existing ++ transactions data) with
        | Raises e => (Raises e, w1)
        | Returns merged => (Returns (), write_rows output_path merged w1)
        end
    end.

(** [for parser in ERI_PARSERS: ...] and the warning after the loop. *)
Fixpoint parsers_loop (parsers : list EriParser) (path : string) (w : World)
  : Outcome unit * World :=
  match parsers with
  | [] => (Returns (), print (NoParserFound path) w)
  | parser :: rest =>
      match parse parser path w with
      | (Raises e, w1) => (Raises e, w1)
      | (Returns None, w1) => parsers_loop rest path w1      (* continue *)
      | (Returns (Some data), w1) => import_parsed parser data path w1
      end
  end.

Definition eri_import_from_file (ERI_PARSERS : list EriParser)
    (path : string) (w : World) : Outcome unit * World :=
  if negb (is_file path w)
  then (Raises (AssertionError (NotAFile path)), w)
  else parsers_loop ERI_PARSERS path (print (Processing path) w).

End ImportFile.

(** Successive imports into one store: each batch is merged into what the
    previous import wrote (the store file read back as it was written). *)
Fixpoint merge_batches (approx_equal : Decimal → Decimal → Decimal → bool)
    (store : list EriTransaction) (batches : list (list EriTransaction))
  : Outcome (list EriTransaction) :=
  match batches with
  | [] => Returns store
  | incoming :: rest =>
      store' ← validate_and_remove_duplicates approx_equal (store ++ incoming);
      merge_batches approx_equal store' rest
  end.

(** The two assertions on a record hold: its price is set and its ISIN is
    a non-empty string. *)
Definition is_set (transaction : EriTransaction) : bool :=
  match price transaction with
  | None => false
  | Some _ => isin_bool (isin transaction)
  end.

(** Records in non-decreasing order of date. *)
Definition date_le (a b : EriTransaction) : Prop := Date.le (date a) (date b).

(** What the loop maintains: the index holds exactly the records of
    [result], each under its key; no key occurs twice in [result]; every
    record of [result] passed the assertions. *)
Record merge_inv (st : MergeState) : Prop := {
  inv_index : ∀ k t, st.1 !! k = Some t ↔ t ∈ st.2 ∧ key_of t = k;
  inv_nodup : NoDup (key_of <$> st.2);
  inv_set : Forall (λ t, is_set t = true) st.2;
}.

(** A record is covered by an index: it passes the assertions and the
    entry under its key is within tolerance of it, so that an iteration on
    it skips it. *)
Definition covered (approx_equal : Decimal → Decimal → Decimal → bool)
    (idx : gmap (option string * Date.t) EriTransaction)
    (t : EriTransaction) : Prop :=
  ∃ cur pc p, price t = Some p ∧ isin_bool (isin t) = true ∧
    idx !! key_of t = Some cur ∧ price cur = Some pc ∧
    approx_equal pc p TOLERANCE = true.

(** Every parser of a list declines the file, one after the other. *)
Inductive all_decline (path : string)
  : list EriParser → World → World → Prop :=
| all_decline_nil w : all_decline path [] w w
| all_decline_cons parser rest w w1 w2 :
    parse parser path w = (Returns None, w1) →
    all_decline path rest w1 w2 →
    all_decline path (parser :: rest) w w2.

(** Modelled from the spec: the rows of [read_eri_raw] of [.raw], the
    store reader, which is not among the embedded modules. The spec's
    [read] "returns an empty sequence if the store does not yet exist",
    parses one record per row after the header, and fails with a format
    error on a row that is no valid record. *)
Fixpoint read_rows (rows : list CsvRow) : Outcome (list EriTransaction) :=
  match rows with
  | [] => Returns []
  | DataRow row_isin row_date row_currency (Some row_price) :: rest =>
      records ← read_rows rest;
      Returns (mkEriTransaction row_date row_isin (Some row_price) row_currency
                 :: records)
  | _ => Raises (OtherError "FormatError")
  end.

(** Modelled from the spec: [read_eri_raw] itself, on a path of the world:
    no file there is the empty store, a store file is its header followed
    by its rows, anything else is a format error. *)
Definition read_eri_raw_spec (path : string) (w : World)
  : Outcome (list EriTransaction) :=
  match files w !! path with
  | None => Returns []
  | Some (Csv (HeaderRow :: rows)) => read_rows rows
  | Some _ => Raises (OtherError "FormatError")
  end.

(** The records of the spec's example scenarios. *)
Module Sample.

Definition d_2023_01_01 : Date.t := Date.mk 2023 1 1.
Definition d_2023_03_01 : Date.t := Date.mk 2023 3 1.

(** ("GB0001", 2023-01-01, "GBP", 1.2300) *)
Definition gb0001 : EriTransaction :=
  mkEriTransaction d_2023_01_01 (Some "GB0001"%string)
    (Some (mkDecimal 12300 (-4))) "GBP"%string.

(** ("GB0001", 2023-01-01, "GBP", 1.2301) *)
Definition gb0001_restated : EriTransaction :=
  mkEriTransaction d_2023_01_01 (Some "GB0001"%string)
    (Some (mkDecimal 12301 (-4))) "GBP"%string.

(** ("GB0001", 2023-01-01, "GBP", 1.5000) *)
Definition gb0001_conflict : EriTransaction :=
  mkEriTransaction d_2023_01_01 (Some "GB0001"%string)
    (Some (mkDecimal 15000 (-4))) "GBP"%string.

(** ("GB0002", 2023-03-01, "USD", 2.5) *)
Definition gb0002 : EriTransaction :=
  mkEriTransaction d_2023_03_01 (Some "GB0002"%string)
    (Some (mkDecimal 25 (-1))) "USD"%string.

(** ("GB0003", 2023-01-01, "GBP", 1.0) *)
Definition gb0003 : EriTransaction :=
  mkEriTransaction d_2023_01_01 (Some "GB0003"%string)
    (Some (mkDecimal 10 (-1))) "GBP"%string.

(** A record whose price is not set. *)
Definition no_price : EriTransaction :=
  mkEriTransaction d_2023_03_01 (Some "GB0002"%string) None "USD"%string.

(** Where the stores live in the examples. *)
Definition resources_eri (file_name : string) : string :=
  ("resources/eri/" +:+ file_name)%string.

(** A parser that accepts no file. *)
Definition declining : EriParser :=
  mkEriParser "declining" (λ _ w, (Returns None, w)).

(** A parser that accepts every file with the conflicting record. *)
Definition conflicting : EriParser :=
  mkEriParser "conflicting"
    (λ _ w, (Returns (Some (mkEriParserOutput [gb0002; gb0001_conflict]
                              "funds.csv")), w)).

(** A parser that accepts every file with two records. *)
Definition accepting : EriParser :=
  mkEriParser "accepting"
    (λ _ w, (Returns (Some (mkEriParserOutput [gb0002; gb0001_restated]
                              "funds.csv")), w)).

(** A parser that says that it ran, and then raises. *)
Definition loud : EriParser :=
  mkEriParser "loud"
    (λ _ w, (Raises (OtherError "loud"), print (Printed "loud ran") w)).

(** A parser that accepts every file and finds no record in it. *)
Definition empty_handed : EriParser :=
  mkEriParser "empty_handed"
    (λ _ w, (Returns (Some (mkEriParserOutput [] "funds.csv")), w)).

(** A broker's file to import and a store holding one record. *)
Definition world : World :=
  {| files :=
       {[ "broker.csv"%string := Text "..."%string;
          "resources/eri/funds.csv"%string
            := Csv [HeaderRow; data_row gb0001] ]};
     stdout := [] |}.

End Sample.

(* ===================================================================== *)
(** ** data_import.py: the installation check and the import of a path *)
(* ===================================================================== *)

(** [Path.parents] of a resolved path, given by its components below the
    root: the proper ancestors, the nearest first. *)
Definition parents (p : list string) : list (list string) :=
  (λ n, take n p) <$> reverse (seq 0 (length p)).

(** Truth value of [site.ENABLE_USER_SITE], which is [True], [False] or
    [None]. *)
Definition ENABLE_USER_SITE_bool (flag : option bool) : bool :=
  match flag with
  | Some true => true
  | _ => false
  end.

(** [for site_path in site_packages_paths: if ... in ...parents: return
    True] and [return False] after the loop. Components are compared as
    strings (POSIX paths). *)
Fixpoint site_packages_loop (resolve : string → list string)
    (current_file_path : list string) (site_packages_paths : list string)
  : bool :=
  match site_packages_paths with
  | [] => false
  | site_path :: rest =>
      if bool_decide (resolve site_path ∈ parents current_file_path)
      then true
      else site_packages_loop resolve current_file_path rest
  end.

Section SitePackages.

(** [Path(...).resolve()], [__file__] and the three values of the [site]
    module depend on the installation. *)
Variable resolve : string → list string.
Variable module_file : string.
Variable getsitepackages : list string.
Variable ENABLE_USER_SITE : option bool.
Variable getusersitepackages : string.

(** The list after the optional [append]. *)
Definition site_packages_paths : list string :=
  if ENABLE_USER_SITE_bool ENABLE_USER_SITE
  then getsitepackages ++ [getusersitepackages]
  else getsitepackages.

Definition is_running_in_site_packages : bool :=
  let current_file_path := resolve module_file in
  site_packages_loop resolve current_file_path site_packages_paths.

End SitePackages.

(** [subpath.name]: the text after the last ["/"] of a path in pathlib's
    normal form. *)
Fixpoint path_name_from (acc path : string) : string :=
  match path with
  | EmptyString => acc
  | String c rest =>
      if Ascii.eqb c "/"%char then path_name_from "" rest
      else path_name_from (acc +:+ String c "") rest
  end.

Definition path_name (path : string) : string := path_name_from "" path.

(** [name.startswith(".")] *)
Definition startswith_dot (s : string) : bool :=
  match s with
  | String c _ => Ascii.eqb c "."%char
  | EmptyString => false
  end.

(** A name with no ["/"] in it. *)
Fixpoint no_slash (s : string) : bool :=
  match s with
  | EmptyString => true
  | String c rest => negb (Ascii.eqb c "/"%char) && no_slash rest
  end.

(** What [eri_import_from_path] raises: its own assertion, or what the
    import of a file raised. *)
Inductive PathException : Type :=
| InsideInstallation
    (* AssertionError(("You can't import files inside an installation of
       cgt_calc", "Please repeat this operation from the repository
       folder")) *)
| FromFile (e : Exception).

Inductive PathOutcome : Type :=
| PathReturns (isin_translation_file : string)
| PathRaises (e : PathException).

Section ImportPath.

Variable approx_equal : Decimal → Decimal → Decimal → bool.
Variable resources_eri : string → string.
Variable read_eri_raw : string → World → Outcome (list EriTransaction).
(** The module's list [ERI_PARSERS]. *)
Variable ERI_PARSERS : list EriParser.
Variable resolve : string → list string.
Variable module_file : string.
Variable getsitepackages : list string.
Variable ENABLE_USER_SITE : option bool.
Variable getusersitepackages : string.
(** [path.is_dir()] *)
Variable is_dir : string → World → bool.
(** [path.rglob("*")]: the paths the generator yields, taken when the loop
    starts (the listing is taken not to change while the files are
    imported). *)
Variable rglob : string → World → list string.
(** [str((Path(RESOURCES.__file__).parent /
    INITIAL_ISIN_TRANSLATION_FILE).resolve())] *)
Variable isin_translation_file : string.

(** [for subpath in ...: if subpath.is_file() and not
    subpath.name.startswith("."): eri_import_from_file(subpath)], on the
    paths the generator yields. An exception leaves the loop. *)
Fixpoint import_subpaths (subpaths : list string) (w : World)
  : Outcome unit * World :=
  match subpaths with
  | [] => (Returns (), w)
  | subpath :: rest =>
      if is_file subpath w && negb (startswith_dot (path_name subpath))
      then
        match eri_import_from_file approx_equal resources_eri read_eri_raw
                ERI_PARSERS subpath w with
        | (Returns _, w1) => import_subpaths rest w1
        | (Raises e, w1) => (Raises e, w1)
        end
      else import_subpaths rest w
  end.

(** [path_str] is taken in pathlib's normal form, so that [Path(path_str)]
    prints as [path_str]. *)
Definition eri_import_from_path (path_str : string) (w : World)
  : PathOutcome * World :=
  if is_running_in_site_packages resolve module_file getsitepackages
       ENABLE_USER_SITE getusersitepackages
  then (PathRaises InsideInstallation, w)
  else
    let w1 :=
      print (Printed ("ERI data import mode activated from " +:+ path_str)) w
    in
    let path := path_str in
    let imported :=
      if is_dir path w1
      then import_subpaths (rglob path w1) w1
      else eri_import_from_file approx_equal resources_eri read_eri_raw
             ERI_PARSERS path w1
    in
    match imported with
    | (Returns _, w2) => (PathReturns isin_translation_file, w2)
    | (Raises e, w2) => (PathRaises (FromFile e), w2)
    end.

End ImportPath.

(** model.py: an [EriParser] whose [parse] is the base class's, which
    raises [NotImplementedError]. *)
Definition EriParser_base (name : string) : EriParser :=
  mkEriParser name (λ file w, (Raises (OtherError "NotImplementedError"), w)).

(** The merge finds no conflict in an input: every record after the first
    one of its key has a price that the helper accepts against the first
    one's. *)
Definition consistent (approx_equal : Decimal → Decimal → Decimal → bool)
    (ts : list EriTransaction) : Prop :=
  ∀ l1 a l2 b l3 pa pb,
    ts = l1 ++ a :: l2 ++ b :: l3 →
    key_of a ∉ key_of <$> l1 → key_of b = key_of a →
    price a = Some pa → price b = Some pb →
    approx_equal pa pb TOLERANCE = true.

(** [t] is the first record of its key in [ts]. *)
Definition first_of_key (t : EriTransaction) (ts : list EriTransaction)
  : Prop :=
  ∃ l1 l2, ts = l1 ++ t :: l2 ∧ key_of t ∉ key_of <$> l1.

(** Paths for the examples. *)
Module SamplePaths.

(** ["/a/b/c"] resolves to [["a"; "b"; "c"]]. *)
Fixpoint components (acc path : string) : list string :=
  match path with
  | EmptyString => if String.eqb acc "" then [] else [acc]
  | String c rest =>
      if Ascii.eqb c "/"%char
      then (if String.eqb acc "" then [] else [acc]) ++ components "" rest
      else components (acc +:+ String c "") rest
  end.

Definition resolve (path : string) : list string := components "" path.

Definition site_dir : string := "/usr/lib/python3/site-packages".
Definition user_site_dir : string := "/home/me/.local/site-packages".
Definition installed_module : string :=
  "/usr/lib/python3/site-packages/cgt_calc/parsers/eri/data_import.py".
Definition repository_module : string :=
  "/home/me/src/cgt_calc/parsers/eri/data_import.py".

(** Two brokers' files, one of them hidden, beside the store. *)
Definition tree : World :=
  {| files :=
       {[ "in/a.csv"%string := Text "a"%string;
          "in/.hidden.csv"%string := Text "h"%string;
          "in/.cache/b.csv"%string := Text "b"%string;
          "resources/eri/funds.csv"%string
            := Csv [HeaderRow; data_row Sample.gb0001] ]};
     stdout := [] |}.

Definition is_dir (path : string) (w : World) : bool :=
  String.eqb path "in".

Definition rglob (path : string) (w : World) : list string :=
  ["in/.cache"; "in/.cache/b.csv"; "in/.hidden.csv"; "in/a.csv"]%string.

End SamplePaths.

(* ===================================================================== *)
(** ** The order on dates and the sort *)
(* ===================================================================== *)

Module DateFacts.

Lemma ltb_lt d1 d2 : Date.ltb d1 d2 = true ↔ Date.lt d1 d2.
Proof.
  unfold Date.ltb, Date.lt.
  rewrite !orb_true_iff, !andb_true_iff, !orb_true_iff, !andb_true_iff.
  rewrite !Z.ltb_lt, !Z.eqb_eq. tauto.
Qed.

Lemma ltb_ge d1 d2 : Date.ltb d1 d2 = false ↔ Date.le d2 d1.
Proof.
  rewrite <- not_true_iff_false, ltb_lt. unfold Date.le, Date.lt.
  destruct d1 as [y1 m1 a1], d2 as [y2 m2 a2]; simpl. split.
  - intros H.
    destruct (decide (y2 = y1)) as [->|]; [|lia].
    destruct (decide (m2 = m1)) as [->|]; [|lia].
    destruct (decide (a2 = a1)) as [->|]; [by left|lia].
  - intros [[= -> -> ->]|H]; lia.
Qed.

Lemma lt_irrefl d : ¬ Date.lt d d.
Proof. unfold Date.lt. lia. Qed.

Lemma lt_neq d1 d2 : Date.lt d1 d2 → d1 ≠ d2.
Proof. intros H ->. by apply lt_irrefl in H. Qed.

Lemma lt_trans d1 d2 d3 : Date.lt d1 d2 → Date.lt d2 d3 → Date.lt d1 d3.
Proof. unfold Date.lt. lia. Qed.

Lemma le_refl d : Date.le d d.
Proof. by left. Qed.

Lemma le_trans d1 d2 d3 : Date.le d1 d2 → Date.le d2 d3 → Date.le d1 d3.
Proof.
  intros [->|H1] [->|H2]; [by left|by right|by right|].
  right. eauto using lt_trans.
Qed.

Lemma le_total d1 d2 : Date.le d1 d2 ∨ Date.le d2 d1.
Proof.
  destruct (Date.ltb d1 d2) eqn:E.
  - left. right. by apply ltb_lt.
  - right. by apply ltb_ge.
Qed.

Lemma le_antisym d1 d2 : Date.le d1 d2 → Date.le d2 d1 → d1 = d2.
Proof.
  intros [?|H1] [?|H2]; [done..|].
  destruct (lt_irrefl d1). eauto using lt_trans.
Qed.

End DateFacts.

#[global] Instance date_le_trans : Transitive date_le.
Proof. intros a b c. apply DateFacts.le_trans. Qed.

Module SortFacts.

Lemma insert_perm x l : insert_by_date x l ≡ₚ x :: l.
Proof.
  induction l as [|y l IH]; simpl; [done|].
  destruct (Date.ltb (date y) (date x)); [|done].
  rewrite IH. apply Permutation_swap.
Qed.

Lemma sort_perm l : sort_by_date l ≡ₚ l.
Proof.
  induction l as [|x l IH]; simpl; [done|].
  by rewrite insert_perm, IH.
Qed.

Lemma insert_sorted x l :
  StronglySorted date_le l → StronglySorted date_le (insert_by_date x l).
Proof.
  induction l as [|y l IH]; simpl; intros Hs.
  - repeat constructor.
  - apply StronglySorted_inv in Hs as [Hs Hy].
    destruct (Date.ltb (date y) (date x)) eqn:E.
    + constructor; [by apply IH|].
      rewrite insert_perm. constructor; [|done].
      right. by apply DateFacts.ltb_lt.
    + apply DateFacts.ltb_ge in E.
      constructor; [by constructor|].
      constructor; [done|].
      eapply Forall_impl; [exact Hy|].
      intros z Hz. by trans y.
Qed.

Lemma sort_sorted l : StronglySorted date_le (sort_by_date l).
Proof.
  induction l; simpl; [constructor|by apply insert_sorted].
Qed.

(** Stability: an insertion never moves a record across one of its own
    date. *)
Lemma insert_filter d x l :
  filter (λ t, date t = d) (insert_by_date x l)
  = filter (λ t, date t = d) (x :: l).
Proof.
  induction l as [|y l IH]; simpl; [done|].
  destruct (Date.ltb (date y) (date x)) eqn:E; [|done].
  apply DateFacts.ltb_lt, DateFacts.lt_neq in E.
  rewrite !filter_cons, IH, !filter_cons.
  repeat case_decide; congruence.
Qed.

Lemma sort_filter d l :
  filter (λ t, date t = d) (sort_by_date l) = filter (λ t, date t = d) l.
Proof.
  induction l as [|x l IH]; simpl; [done|].
  by rewrite insert_filter, !filter_cons, IH.
Qed.

(** Sorting a sorted list changes nothing. *)
Lemma sort_id l : StronglySorted date_le l → sort_by_date l = l.
Proof.
  induction l as [|x l IH]; simpl; [done|].
  intros [Hs Hx]%StronglySorted_inv. rewrite IH by done.
  destruct l as [|y l]; simpl; [done|].
  apply Forall_cons in Hx as [Hxy _].
  apply DateFacts.ltb_ge in Hxy. by rewrite Hxy.
Qed.

(** A list sorted by date is determined by its records of each date, in
    their order: a stable sort has one result. *)
Lemma sorted_unique l l' :
  StronglySorted date_le l → StronglySorted date_le l' →
  (∀ d, filter (λ t, date t = d) l = filter (λ t, date t = d) l') →
  l = l'.
Proof.
  intros Hl. revert l'. induction Hl as [|x l Hl IH Hx]; intros l' Hl' Hf.
  - destruct l' as [|y l']; [done|].
    specialize (Hf (date y)). rewrite filter_nil, filter_cons in Hf.
    by case_decide.
  - destruct Hl' as [|y l' Hl' Hy].
    { specialize (Hf (date x)). rewrite filter_nil, filter_cons in Hf.
      by case_decide. }
    assert (x = y) as <-.
    { pose proof (Hf (date x)) as Hfx. pose proof (Hf (date y)) as Hfy.
      rewrite !filter_cons in Hfx, Hfy.
      destruct (decide (date y = date x)) as [Heq|Hne].
      - rewrite decide_True in Hfx by done. by injection Hfx.
      - rewrite decide_True in Hfx by done.
        rewrite decide_False in Hfy by congruence.
        rewrite decide_True in Hfy by done.
        assert (x ∈ l') as Hxin.
        { eapply list_elem_of_filter. rewrite <- Hfx. left. }
        assert (y ∈ l) as Hyin.
        { eapply list_elem_of_filter. rewrite Hfy. left. }
        apply (proj1 (Forall_forall _ _) Hy) in Hxin.
        apply (proj1 (Forall_forall _ _) Hx) in Hyin.
        destruct Hne. by apply DateFacts.le_antisym. }
    f_equal. apply IH; [done|]. intros d. specialize (Hf d).
    rewrite !filter_cons in Hf. case_decide; [by injection Hf|done].
Qed.

(** Sorting a part of a list first changes nothing. *)
Lemma sort_app_sort l1 l2 :
  sort_by_date (sort_by_date l1 ++ l2) = sort_by_date (l1 ++ l2).
Proof.
  apply sorted_unique; [apply sort_sorted..|].
  intros d. by rewrite !sort_filter, !filter_app, sort_filter.
Qed.

End SortFacts.

(* ===================================================================== *)
(** ** The merge loop *)
(* ===================================================================== *)

Section MergeFacts.

Variable approx_equal : Decimal → Decimal → Decimal → bool.

Abbreviation merge_step := (merge_step approx_equal).
Abbreviation merge_loop := (merge_loop approx_equal).
Abbreviation validate_and_remove_duplicates :=
  (validate_and_remove_duplicates approx_equal).
Abbreviation covered := (covered approx_equal).

Implicit Types (idx : gmap (option string * Date.t) EriTransaction).
Implicit Types (res pre post : list EriTransaction) (t cur : EriTransaction).

Lemma is_set_spec t :
  is_set t = true ↔ (∃ p, price t = Some p) ∧ isin_bool (isin t) = true.
Proof.
  unfold is_set. destruct (price t); [|split; [done|by intros [[? ?] _]]].
  split; [eauto|by intros [_ ?]].
Qed.

(** The three ways an iteration can end. *)
Lemma merge_step_new idx res t :
  is_set t = true → idx !! key_of t = None →
  merge_step (idx, res) t = Returns (<[key_of t := t]> idx, res ++ [t]).
Proof.
  intros [[p Hp] Hi]%is_set_spec Hk. unfold merge_step.
  by rewrite Hp, Hi, Hk.
Qed.

Lemma merge_step_skip idx res t cur pc p :
  price t = Some p → isin_bool (isin t) = true →
  idx !! key_of t = Some cur → price cur = Some pc →
  approx_equal pc p TOLERANCE = true →
  merge_step (idx, res) t = Returns (idx, res).
Proof.
  intros Hp Hi Hk Hc Ha. unfold merge_step.
  by rewrite Hp, Hi, Hk, Hc, Ha.
Qed.

Lemma merge_step_conflict idx res t cur pc p :
  price t = Some p → isin_bool (isin t) = true →
  idx !! key_of t = Some cur → price cur = Some pc →
  approx_equal pc p TOLERANCE = false →
  merge_step (idx, res) t = Raises (InvalidTransactionError t cur).
Proof.
  intros Hp Hi Hk Hc Ha. unfold merge_step.
  by rewrite Hp, Hi, Hk, Hc, Ha.
Qed.

Lemma merge_step_unset idx res t :
  is_set t = false →
  merge_step (idx, res) t
  = Raises (AssertionError
              (match price t with
               | None => PriceNotSet t
               | Some _ => IsinNotSet t
               end)).
Proof.
  unfold is_set, merge_step. destruct (price t); [|done].
  by intros ->.
Qed.

(** An iteration that returns has appended the record or skipped it. *)
Lemma merge_step_Returns idx res t st' :
  merge_step (idx, res) t = Returns st' →
  ∃ p, price t = Some p ∧ isin_bool (isin t) = true ∧
    ((idx !! key_of t = None ∧ st' = (<[key_of t := t]> idx, res ++ [t]))
     ∨ (∃ cur pc, idx !! key_of t = Some cur ∧ price cur = Some pc ∧
          approx_equal pc p TOLERANCE = true ∧ st' = (idx, res))).
Proof.
  unfold merge_step. destruct (price t) as [p|]; [|done].
  destruct (isin_bool (isin t)); simpl; [|done].
  destruct (idx !! key_of t) as [cur|] eqn:Hk.
  - destruct (price cur) as [pc|] eqn:Hc; [|done].
    destruct (approx_equal pc p TOLERANCE) eqn:Ha; [|done].
    intros ?; simplify_eq. exists p. do 2 (split; [done|]).
    right. by exists cur, pc.
  - intros ?; simplify_eq. exists p. do 2 (split; [done|]). by left.
Qed.

Lemma merge_loop_app l1 l2 st :
  merge_loop (l1 ++ l2) st = st' ← merge_loop l1 st; merge_loop l2 st'.
Proof.
  revert st. induction l1 as [|t l1 IH]; intros st; simpl; [done|].
  destruct (merge_step st t) as [st1|e]; simpl; [apply IH|done].
Qed.

Lemma merge_loop_snoc pre t idx res :
  merge_loop pre (∅, []) = Returns (idx, res) →
  merge_loop (pre ++ [t]) (∅, []) = merge_step (idx, res) t.
Proof.
  intros H. rewrite merge_loop_app, H. simpl.
  by destruct (merge_step (idx, res) t).
Qed.

Lemma merge_inv_init : merge_inv (∅, []).
Proof.
  split; simpl.
  - intros k t. rewrite lookup_empty, elem_of_nil. by split; [|intros []].
  - constructor.
  - constructor.
Qed.

Lemma merge_step_inv st t st' :
  merge_inv st → merge_step st t = Returns st' → merge_inv st'.
Proof.
  destruct st as [idx res]. intros [Hidx Hnd Hset] Hstep. simpl in *.
  apply merge_step_Returns in Hstep
    as (p & Hp & Hi & [[Hk ->]|(cur & pc & _ & _ & _ & ->)]);
    [|by split].
  split; simpl.
  - intros k t'. rewrite lookup_insert, elem_of_app, list_elem_of_singleton.
    case_decide as Hkk.
    + subst k. split.
      * intros [= <-]. auto.
      * intros [[Hin | ->] Hkey]; [|done].
        assert (idx !! key_of t = Some t') by by apply Hidx.
        congruence.
    + rewrite Hidx. split; [intros []; auto|].
      intros [[?| ->] ?]; [done|congruence].
  - rewrite fmap_app. simpl. apply NoDup_app. split; [done|].
    split; [|apply NoDup_singleton].
    intros k Hin ->%list_elem_of_singleton.
    apply list_elem_of_fmap in Hin as (t' & Hkey & Hin).
    assert (idx !! key_of t = Some t') by by apply Hidx.
    congruence.
  - apply Forall_app. split; [done|].
    apply Forall_singleton. apply is_set_spec. eauto.
Qed.

Lemma merge_loop_inv l st st' :
  merge_inv st → merge_loop l st = Returns st' → merge_inv st'.
Proof.
  revert st. induction l as [|t l IH]; intros st Hinv; simpl.
  - by intros [= <-].
  - destruct (merge_step st t) as [st1|e] eqn:E; simpl; [|done].
    eauto using merge_step_inv.
Qed.

(** [result] only grows, at its end, and by records of the input. *)
Lemma merge_loop_result l idx res idx' res' :
  merge_loop l (idx, res) = Returns (idx', res') →
  ∃ added, res' = res ++ added ∧ added `sublist_of` l.
Proof.
  revert idx res. induction l as [|t l IH]; intros idx res; simpl.
  - intros [= <- <-]. exists []. by rewrite app_nil_r.
  - destruct (merge_step (idx, res) t) as [st1|e] eqn:E; simpl; [|done].
    apply merge_step_Returns in E
      as (p & _ & _ & [[_ ->]|(cur & pc & _ & _ & _ & ->)]); intros H.
    + apply IH in H as (added & -> & Hsub).
      exists (t :: added). rewrite <- app_assoc. split; [done|].
      by apply sublist_skip.
    + apply IH in H as (added & -> & Hsub).
      exists added. split; [done|]. by apply sublist_cons.
Qed.

(** An entry of the index is never replaced. *)
Lemma merge_loop_index_mono l idx res idx' res' k cur :
  merge_loop l (idx, res) = Returns (idx', res') →
  idx !! k = Some cur → idx' !! k = Some cur.
Proof.
  revert idx res. induction l as [|t l IH]; intros idx res; simpl.
  - by intros [= <- <-].
  - destruct (merge_step (idx, res) t) as [st1|e] eqn:E; simpl; [|done].
    apply merge_step_Returns in E
      as (p & _ & _ & [[Hk ->]|(cur' & pc & _ & _ & _ & ->)]);
      intros H Hcur; eapply IH; eauto.
    rewrite lookup_insert_ne; [done|]. congruence.
Qed.

Lemma bind_Returns_inv {A B} (m : Outcome A) (k : A → Outcome B) b :
  m ≫= k = Returns b → ∃ a, m = Returns a ∧ k a = Returns b.
Proof. destruct m as [a|e]; [eauto|done]. Qed.

Lemma merge_loop_app_Returns l1 l2 st st' :
  merge_loop (l1 ++ l2) st = Returns st' →
  ∃ st1, merge_loop l1 st = Returns st1 ∧ merge_loop l2 st1 = Returns st'.
Proof. rewrite merge_loop_app. apply bind_Returns_inv. Qed.

Lemma validate_Returns ts r :
  validate_and_remove_duplicates ts = Returns r ↔
  ∃ idx res, merge_loop ts (∅, []) = Returns (idx, res)
             ∧ r = sort_by_date res.
Proof.
  unfold validate_and_remove_duplicates.
  destruct (merge_loop ts (∅, [])) as [[idx res]|e]; simpl; split.
  - intros [= <-]. eauto.
  - by intros (? & ? & [= <- <-] & ->).
  - done.
  - by intros (? & ? & ? & _).
Qed.

Lemma validate_Raises ts e :
  validate_and_remove_duplicates ts = Raises e ↔
  merge_loop ts (∅, []) = Raises e.
Proof.
  unfold validate_and_remove_duplicates.
  destruct (merge_loop ts (∅, [])) as [[idx res]|e']; simpl; split;
    congruence.
Qed.

(** Two merges that run the same loop return the same. *)
Lemma validate_ext ts ts' :
  merge_loop ts (∅, []) = merge_loop ts' (∅, []) →
  validate_and_remove_duplicates ts = validate_and_remove_duplicates ts'.
Proof.
  unfold validate_and_remove_duplicates.
  by intros ->.
Qed.

(** A key that no record of the input has is not in the index. *)
Lemma merge_loop_lookup_None l idx res k :
  merge_loop l (∅, []) = Returns (idx, res) →
  k ∉ key_of <$> l → idx !! k = None.
Proof.
  intros Hl Hk. destruct (idx !! k) as [t|] eqn:E; [|done].
  pose proof (merge_loop_inv _ _ _ merge_inv_init Hl) as [Hidx _ _].
  apply Hidx in E as [Hin <-]. simpl in Hin.
  apply merge_loop_result in Hl as (added & Hres & Hsub).
  simpl in Hres. subst res. destruct Hk.
  apply list_elem_of_fmap. exists t. split; [done|].
  eapply elem_of_sublist; eauto.
Qed.

(** The index holds, under each key, the first record of the input with
    that key. *)
Lemma merge_loop_first_occurrence l1 a l2 idx res :
  key_of a ∉ key_of <$> l1 →
  merge_loop (l1 ++ a :: l2) (∅, []) = Returns (idx, res) →
  idx !! key_of a = Some a ∧ a ∈ res.
Proof.
  intros Hfresh Hl.
  apply merge_loop_app_Returns in Hl as ([idx1 res1] & H1 & H2).
  simpl in H2. apply bind_Returns_inv in H2 as ([idx2 res2] & Hstep & H2).
  pose proof (merge_loop_lookup_None _ _ _ _ H1 Hfresh) as Hnone.
  apply merge_step_Returns in Hstep
    as (p & _ & _ & [[_ Heq]|(cur & pc & Hk & _)]); [|congruence].
  injection Heq as -> ->. split.
  - eapply merge_loop_index_mono; [exact H2|]. apply lookup_insert_eq.
  - apply merge_loop_result in H2 as (added & -> & _).
    rewrite !elem_of_app, list_elem_of_singleton. auto.
Qed.

Lemma merge_loop_covered l idx res idx' res' :
  (∀ p, approx_equal p p TOLERANCE = true) →
  merge_loop l (idx, res) = Returns (idx', res') →
  Forall (covered idx') l.
Proof.
  intros Hrefl. revert idx res.
  induction l as [|t l IH]; intros idx res; simpl; [constructor|].
  intros ([idx1 res1] & Hstep & Hl)%bind_Returns_inv.
  constructor; [|eauto].
  apply merge_step_Returns in Hstep
    as (p & Hp & Hi & [[_ Heq]|(cur & pc & Hk & Hc & Ha & Heq)]);
    injection Heq as -> ->.
  - exists t, p, p. repeat split; auto.
    eapply merge_loop_index_mono; [exact Hl|]. apply lookup_insert_eq.
  - exists cur, pc, p. repeat split; auto.
    eapply merge_loop_index_mono; eauto.
Qed.

Lemma merge_loop_all_skip l idx res :
  Forall (covered idx) l → merge_loop l (idx, res) = Returns (idx, res).
Proof.
  induction 1 as [|t l (cur & pc & p & Hp & Hi & Hk & Hc & Ha) _ IH];
    simpl; [done|].
  by erewrite merge_step_skip by eauto.
Qed.

(** Records with pairwise different keys, all set, are all appended. *)
Lemma merge_loop_fresh l idx res :
  merge_inv (idx, res) →
  NoDup (key_of <$> (res ++ l)) → Forall (λ t, is_set t = true) l →
  ∃ idx', merge_loop l (idx, res) = Returns (idx', res ++ l).
Proof.
  revert idx res. induction l as [|t l IH]; intros idx res Hinv Hnd Hset.
  - exists idx. by rewrite app_nil_r.
  - apply Forall_cons in Hset as [Ht Hset]. simpl.
    assert (idx !! key_of t = None) as Hnone.
    { destruct (idx !! key_of t) as [t'|] eqn:E; [|done].
      apply (inv_index _ Hinv) in E as [Hin Hkey]. simpl in Hin.
      rewrite fmap_app in Hnd. apply NoDup_app in Hnd as (_ & Hdisj & _).
      destruct (Hdisj (key_of t)).
      - rewrite <- Hkey. by apply list_elem_of_fmap_2.
      - simpl. left. }
    rewrite merge_step_new by done. simpl.
    destruct (IH (<[key_of t := t]> idx) (res ++ [t])) as [idx' H].
    + eapply merge_step_inv; [exact Hinv|]. by apply merge_step_new.
    + by rewrite <- app_assoc.
    + done.
    + exists idx'. by rewrite <- app_assoc in H.
Qed.

(** The index is determined by [result], up to its order. *)
Lemma merge_inv_index_eq idx res idx' res' :
  merge_inv (idx, res) → merge_inv (idx', res') → res ≡ₚ res' → idx = idx'.
Proof.
  intros [H1 _ _] [H2 _ _] Hp. simpl in *.
  apply map_eq. intros k. apply option_eq. intros t.
  rewrite H1, H2. by rewrite Hp.
Qed.

(** Every record of a merged input has an entry under its key. *)
Lemma merge_loop_seen l idx res idx' res' :
  merge_loop l (idx, res) = Returns (idx', res') →
  Forall (λ t, is_Some (idx' !! key_of t)) l.
Proof.
  revert idx res.
  induction l as [|t l IH]; intros idx res; simpl; [constructor|].
  intros ([idx1 res1] & Hstep & Hl)%bind_Returns_inv.
  constructor; [|eauto].
  apply merge_step_Returns in Hstep
    as (p & Hp & Hi & [[_ Heq]|(cur & pc & Hk & Hc & Ha & Heq)]);
    injection Heq as -> ->.
  - exists t. eapply merge_loop_index_mono; [exact Hl|].
    apply lookup_insert_eq.
  - exists cur. eapply merge_loop_index_mono; eauto.
Qed.

(** An iteration on a record that is set, from a state the loop can be
    in, ends in one of the three ways and in no failed assertion. *)
Lemma merge_step_no_assert st t msg :
  merge_inv st → is_set t = true →
  merge_step st t ≠ Raises (AssertionError msg).
Proof.
  destruct st as [idx res]. intros [Hidx _ Hset] Ht. simpl in *.
  apply is_set_spec in Ht as [[p Hp] Hi].
  destruct (idx !! key_of t) as [cur|] eqn:Hk.
  - assert (is_set cur = true) as [[pc Hc] _]%is_set_spec.
    { apply Hidx in Hk as [Hin _].
      by apply (proj1 (Forall_forall _ _) Hset). }
    destruct (approx_equal pc p TOLERANCE) eqn:Ha.
    + by erewrite merge_step_skip.
    + by erewrite merge_step_conflict.
  - rewrite merge_step_new; [done| |done]. apply is_set_spec. eauto.
Qed.

Lemma merge_loop_no_assert l st msg :
  merge_inv st → Forall (λ t, is_set t = true) l →
  merge_loop l st ≠ Raises (AssertionError msg).
Proof.
  intros Hinv Hl. revert st Hinv.
  induction Hl as [|t l Ht _ IH]; intros st Hinv; simpl; [done|].
  destruct (merge_step st t) as [st1|e] eqn:E; simpl.
  - apply IH. eauto using merge_step_inv.
  - intros [= ->]. by eapply merge_step_no_assert.
Qed.

(** Idempotence, for any helper that finds a price within tolerance of
    itself. *)
Lemma merge_idempotent_gen existing incoming store :
  (∀ p, approx_equal p p TOLERANCE = true) →
  validate_and_remove_duplicates (existing ++ incoming) = Returns store →
  validate_and_remove_duplicates (store ++ incoming) = Returns store.
Proof.
  intros Hrefl (idx & res & Hl & ->)%validate_Returns.
  pose proof (merge_loop_inv _ _ _ merge_inv_init Hl) as Hinv.
  pose proof (SortFacts.sort_perm res) as Hperm.
  destruct (merge_loop_fresh (sort_by_date res) ∅ []) as [idx' Hs].
  - apply merge_inv_init.
  - simpl. rewrite Hperm. apply Hinv.
  - rewrite Hperm. apply Hinv.
  - simpl in Hs.
    assert (idx' = idx) as ->.
    { eapply merge_inv_index_eq; [| exact Hinv | exact Hperm].
      eapply merge_loop_inv; [apply merge_inv_init | exact Hs]. }
    apply validate_Returns. exists idx, (sort_by_date res). split.
    + rewrite merge_loop_app, Hs. simpl.
      apply merge_loop_all_skip.
      apply merge_loop_covered in Hl; [|done].
      by apply Forall_app in Hl as [_ ?].
    + symmetry. apply SortFacts.sort_id, SortFacts.sort_sorted.
Qed.

(** The records of one key in a list that has no key twice. *)
Lemma filter_key_absent (l : list EriTransaction) k :
  k ∉ key_of <$> l → filter (λ x, key_of x = k) l = [].
Proof.
  induction l as [|x l IH]; simpl; [done|].
  rewrite not_elem_of_cons. intros [Hx Hl].
  rewrite filter_cons, decide_False by done. by apply IH.
Qed.

Lemma filter_key_unique (l : list EriTransaction) t :
  NoDup (key_of <$> l) → t ∈ l →
  filter (λ x, key_of x = key_of t) l = [t].
Proof.
  induction l as [|x l IH]; simpl; [by intros _ ?%elem_of_nil|].
  intros [Hx Hl]%NoDup_cons [->|Hin]%elem_of_cons.
  - rewrite filter_cons, decide_True by done.
    by rewrite filter_key_absent.
  - rewrite filter_cons, decide_False; [by apply IH|].
    intros Heq. apply Hx. rewrite Heq. by apply list_elem_of_fmap_2.
Qed.

(** What a merge returns, from the state its loop ends in. *)
Lemma validate_result ts idx res r :
  merge_loop ts (∅, []) = Returns (idx, res) →
  validate_and_remove_duplicates ts = Returns r →
  r = sort_by_date res ∧ NoDup (key_of <$> r) ∧ ∀ x, x ∈ r ↔ x ∈ res.
Proof.
  intros Hl (idx' & res' & Hl' & ->)%validate_Returns.
  rewrite Hl in Hl'. injection Hl' as <- <-.
  split; [done|]. split.
  - rewrite SortFacts.sort_perm.
    apply (inv_nodup _ (merge_loop_inv _ _ _ merge_inv_init Hl)).
  - intros x. by rewrite SortFacts.sort_perm.
Qed.

(** C1. The merge takes the records in order; when it reaches a record
    (the loop over the records before it has returned) whose price and
    ISIN are set: if the index has no entry under the record's key, which
    is so exactly when no earlier record has that key, the record is
    appended to the output and registered, and the merge goes on: the
    merge up to that record returns the output so far with the record
    added, and whatever list the whole merge returns holds the record, as
    the only one of its key, beside every record accepted before it. If
    the index has an entry, that entry is a record of the output accepted
    earlier with the same key, and either the helper finds its price
    within [Decimal("0.0001")] of the record's, then index and output stay
    as they are and the merge goes on: the merge returns what it returns
    on the input without the record, and the list it returns holds the
    earlier record as the only one of that key; or the merge raises
    [InvalidTransactionError] carrying the new record and the earlier
    one. *)
Theorem merge_record_cases pre t post idx res :
  merge_loop pre (∅, []) = Returns (idx, res) →
  is_set t = true →
  (idx !! key_of t = None ↔ key_of t ∉ key_of <$> pre)
  ∧ (idx !! key_of t = None →
       merge_loop (pre ++ t :: post) (∅, [])
       = merge_loop post (<[key_of t := t]> idx, res ++ [t])
       ∧ validate_and_remove_duplicates (pre ++ [t])
         = Returns (sort_by_date (res ++ [t]))
       ∧ (∀ r, validate_and_remove_duplicates (pre ++ t :: post)
               = Returns r →
               t ∈ r
               ∧ filter (λ x, key_of x = key_of t) r = [t]
               ∧ ∀ x, x ∈ res → x ∈ r))
  ∧ (∀ cur, idx !! key_of t = Some cur →
       cur ∈ res ∧ key_of cur = key_of t ∧
       ∃ pc p, price cur = Some pc ∧ price t = Some p ∧
         (approx_equal pc p TOLERANCE = true →
            merge_loop (pre ++ t :: post) (∅, []) = merge_loop post (idx, res)
            ∧ validate_and_remove_duplicates (pre ++ [t])
              = Returns (sort_by_date res)
            ∧ validate_and_remove_duplicates (pre ++ t :: post)
              = validate_and_remove_duplicates (pre ++ post)
            ∧ (∀ r, validate_and_remove_duplicates (pre ++ t :: post)
                    = Returns r →
                    cur ∈ r
                    ∧ filter (λ x, key_of x = key_of t) r = [cur]
                    ∧ ∀ x, x ∈ res → x ∈ r))
         ∧ (approx_equal pc p TOLERANCE = false →
              validate_and_remove_duplicates (pre ++ t :: post)
              = Raises (InvalidTransactionError t cur))).
Proof.
  intros Hpre Ht.
  pose proof (merge_loop_inv _ _ _ merge_inv_init Hpre) as [Hidx _ Hset].
  simpl in *. split; [|split].
  - split.
    + intros Hnone Hin.
      pose proof (merge_loop_seen _ _ _ _ _ Hpre) as Hseen.
      apply list_elem_of_fmap in Hin as (t' & Hkey & Hin).
      apply (proj1 (Forall_forall _ _) Hseen) in Hin as [cur Hcur].
      congruence.
    + by apply (merge_loop_lookup_None pre idx res).
  - intros Hnone.
    assert (merge_loop (pre ++ t :: post) (∅, [])
            = merge_loop post (<[key_of t := t]> idx, res ++ [t])) as Hgo.
    { rewrite merge_loop_app, Hpre. simpl.
      by rewrite (merge_step_new idx res t Ht Hnone). }
    split; [done|]. split.
    + apply validate_Returns. eexists _, _. split; [|done].
      rewrite (merge_loop_snoc _ _ _ _ Hpre). by apply merge_step_new.
    + intros r Hr.
      pose proof Hr as (idx' & res' & Hl & _)%validate_Returns.
      destruct (validate_result _ _ _ _ Hl Hr) as (_ & Hnd & Hmem).
      rewrite Hgo in Hl.
      apply merge_loop_result in Hl as (added & -> & _).
      assert (t ∈ r) as Htr.
      { apply Hmem. rewrite !elem_of_app, list_elem_of_singleton. auto. }
      split; [done|]. split; [by apply filter_key_unique|].
      intros x Hx. apply Hmem. rewrite !elem_of_app. auto.
  - intros cur Hcur.
    pose proof Hcur as [Hin Hkey]%Hidx.
    split; [done|]. split; [done|].
    assert (is_set cur = true) as [[pc Hc] _]%is_set_spec
      by by apply (proj1 (Forall_forall _ _) Hset).
    pose proof Ht as [[p Hp] Hi]%is_set_spec.
    exists pc, p. do 2 (split; [done|]). split.
    + intros Ha.
      assert (merge_loop (pre ++ t :: post) (∅, [])
              = merge_loop post (idx, res)) as Hgo.
      { rewrite merge_loop_app, Hpre. simpl.
        by rewrite (merge_step_skip idx res t cur pc p Hp Hi Hcur Hc Ha). }
      split; [done|]. split; [|split].
      * apply validate_Returns. exists idx, res. split; [|done].
        rewrite (merge_loop_snoc _ _ _ _ Hpre).
        by apply (merge_step_skip idx res t cur pc p).
      * apply validate_ext. by rewrite Hgo, merge_loop_app, Hpre.
      * intros r Hr.
        pose proof Hr as (idx' & res' & Hl & _)%validate_Returns.
        destruct (validate_result _ _ _ _ Hl Hr) as (_ & Hnd & Hmem).
        rewrite Hgo in Hl.
        apply merge_loop_result in Hl as (added & -> & _).
        assert (cur ∈ r) as Hcr.
        { apply Hmem. rewrite elem_of_app. auto. }
        split; [done|]. split.
        -- rewrite <- Hkey. by apply filter_key_unique.
        -- intros x Hx. apply Hmem. rewrite elem_of_app. auto.
    + intros Ha. apply validate_Raises.
      rewrite merge_loop_app, Hpre. simpl.
      by rewrite (merge_step_conflict idx res t cur pc p Hp Hi Hcur Hc Ha).
Qed.

(** C4. A successful merge returns its records in non-decreasing order of
    date, and the order is that of a stable sort of the deduplicated
    input: the returned list is a rearrangement of the loop's [result]
    (the records of the input that were appended, in input order), and the
    records of any one date come in the order they have in [result]. Any
    further successful merges into the returned store leave a sorted
    store. *)
Theorem merge_sorted_stable ts r :
  validate_and_remove_duplicates ts = Returns r →
  Sorted date_le r
  ∧ (∃ idx res,
       merge_loop ts (∅, []) = Returns (idx, res)
       ∧ res `sublist_of` ts
       ∧ r ≡ₚ res
       ∧ ∀ d, filter (λ t, date t = d) r = filter (λ t, date t = d) res)
  ∧ (∀ batches r',
       merge_batches approx_equal r batches = Returns r' →
       Sorted date_le r').
Proof.
  intros (idx & res & Hl & ->)%validate_Returns. split; [|split].
  - apply StronglySorted_Sorted, SortFacts.sort_sorted.
  - exists idx, res. split; [done|]. split; [|split].
    + apply merge_loop_result in Hl as (added & Hres & Hsub).
      simpl in Hres. by subst res.
    + apply SortFacts.sort_perm.
    + intros d. apply SortFacts.sort_filter.
  - intros batches.
    assert (Sorted date_le (sort_by_date res)) as Hs
      by apply StronglySorted_Sorted, SortFacts.sort_sorted.
    revert Hs. generalize (sort_by_date res). clear.
    induction batches as [|b batches IH]; intros store Hs r'; simpl.
    + by intros [= <-].
    + intros (s' & Hm & Hrest)%bind_Returns_inv.
      eapply IH; [|exact Hrest].
      apply validate_Returns in Hm as (idx & res & _ & ->).
      apply StronglySorted_Sorted, SortFacts.sort_sorted.
Qed.

(** C5. No two records of what a successful merge returns have the same
    (ISIN, date) key. *)
Theorem merge_unique_keys ts r :
  validate_and_remove_duplicates ts = Returns r →
  NoDup (key_of <$> r).
Proof.
  intros (idx & res & Hl & ->)%validate_Returns.
  rewrite SortFacts.sort_perm.
  apply (inv_nodup _ (merge_loop_inv _ _ _ merge_inv_init Hl)).
Qed.

(** C9. A record whose price is [None], or whose ISIN is [None] or empty,
    fails its assertion as soon as the loop takes it, whatever the state:
    when the loop has returned on the records before it, the merge raises
    the [AssertionError] of that record, and in no case does a merge of an
    input holding such a record return a list. Conversely, when every
    record of the input has its price and ISIN set, the merge raises no
    [AssertionError]: neither the two assertions on the record nor the one
    on the indexed record can fail. *)
Theorem unset_record_fails_fast :
  (∀ pre t post,
     is_set t = false →
     (∀ st, merge_step st t
            = Raises (AssertionError
                        (match price t with
                         | None => PriceNotSet t
                         | Some _ => IsinNotSet t
                         end)))
     ∧ (∀ st, merge_loop pre (∅, []) = Returns st →
          validate_and_remove_duplicates (pre ++ t :: post)
          = Raises (AssertionError
                      (match price t with
                       | None => PriceNotSet t
                       | Some _ => IsinNotSet t
                       end)))
     ∧ (∀ r, validate_and_remove_duplicates (pre ++ t :: post) ≠ Returns r))
  ∧ (∀ ts msg,
       Forall (λ t, is_set t = true) ts →
       validate_and_remove_duplicates ts ≠ Raises (AssertionError msg)).
Proof.
  split.
  - intros pre t post Ht. split; [|split].
    + intros [idx res]. by apply merge_step_unset.
    + intros [idx res] Hpre. apply validate_Raises.
      rewrite merge_loop_app, Hpre. simpl.
      by rewrite merge_step_unset.
    + intros r (idx & res & Hl & _)%validate_Returns.
      apply merge_loop_app_Returns in Hl as ([idx1 res1] & _ & Hl).
      simpl in Hl. rewrite merge_step_unset in Hl by done. done.
  - intros ts msg Hts Hr. apply validate_Raises in Hr.
    by eapply merge_loop_no_assert; [apply merge_inv_init| |].
Qed.

(** C10. The merge is a function of the concatenation
    [existing ++ incoming] alone: one loop, one index, run over [existing]
    and then over [incoming] from the state [existing] left. Wherever the
    two records of a duplicate key stand in that concatenation (both in
    [existing], both in [incoming], or one in each), with [a] the first
    record of its key and [b] a later one that the loop reaches: if the
    helper finds the prices within tolerance, the pair is collapsed to
    the first occurrence: the merge up to [b] returns a list, the one it
    returns up to the record before [b], in which [a] is the only record
    of the key; the whole merge returns what it returns without [b], and
    any list it returns holds [a] as the only record of the key. If not,
    the merge raises [InvalidTransactionError] carrying [b] and [a]. *)
Theorem duplicates_in_existing existing incoming l1 a l2 b l3 st :
  existing ++ incoming = l1 ++ a :: l2 ++ b :: l3 →
  key_of a ∉ key_of <$> l1 →
  key_of b = key_of a →
  merge_loop (l1 ++ a :: l2) (∅, []) = Returns st →
  is_set b = true →
  merge_loop (existing ++ incoming) (∅, [])
  = (st' ← merge_loop existing (∅, []); merge_loop incoming st')
  ∧ ∃ pa pb, price a = Some pa ∧ price b = Some pb ∧
      (approx_equal pa pb TOLERANCE = true →
         validate_and_remove_duplicates (existing ++ incoming)
         = validate_and_remove_duplicates (l1 ++ a :: l2 ++ l3)
         ∧ (∃ r0,
              validate_and_remove_duplicates (l1 ++ a :: l2) = Returns r0
              ∧ validate_and_remove_duplicates (l1 ++ a :: l2 ++ [b])
                = Returns r0
              ∧ a ∈ r0
              ∧ filter (λ x, key_of x = key_of a) r0 = [a])
         ∧ (∀ r, validate_and_remove_duplicates (existing ++ incoming)
                 = Returns r →
                 a ∈ r ∧ filter (λ x, key_of x = key_of a) r = [a]))
      ∧ (approx_equal pa pb TOLERANCE = false →
           validate_and_remove_duplicates (existing ++ incoming)
           = Raises (InvalidTransactionError b a)).
Proof.
  intros HEI Hfresh Hkey Hpre Hb.
  split; [apply merge_loop_app|]. rewrite HEI.
  destruct st as [idx res].
  pose proof (merge_loop_inv _ _ _ merge_inv_init Hpre) as [_ _ Hset].
  pose proof (merge_loop_first_occurrence _ _ _ _ _ Hfresh Hpre)
    as [Hidx Hin].
  assert (is_set a = true) as [[pa Ha] _]%is_set_spec
    by by apply (proj1 (Forall_forall _ _) Hset).
  pose proof Hb as [[pb Hpb] Hib]%is_set_spec.
  rewrite <- Hkey in Hidx.
  exists pa, pb. do 2 (split; [done|]).
  replace (l1 ++ a :: l2 ++ b :: l3) with ((l1 ++ a :: l2) ++ b :: l3)
    by by rewrite <- app_assoc.
  replace (l1 ++ a :: l2 ++ l3) with ((l1 ++ a :: l2) ++ l3)
    by by rewrite <- app_assoc.
  replace (l1 ++ a :: l2 ++ [b]) with ((l1 ++ a :: l2) ++ [b])
    by by rewrite <- app_assoc.
  split; intros Happrox.
  - assert (merge_loop ((l1 ++ a :: l2) ++ b :: l3) (∅, [])
            = merge_loop l3 (idx, res)) as Hgo.
    { rewrite (merge_loop_app (l1 ++ a :: l2) (b :: l3)), Hpre. simpl.
      by rewrite (merge_step_skip idx res b a pa pb Hpb Hib Hidx Ha Happrox). }
    split; [|split].
    + apply validate_ext.
      by rewrite Hgo, (merge_loop_app (l1 ++ a :: l2) l3), Hpre.
    + assert (validate_and_remove_duplicates (l1 ++ a :: l2)
              = Returns (sort_by_date res)) as Hr0
        by (apply validate_Returns; eauto).
      exists (sort_by_date res). split; [done|].
      destruct (validate_result _ _ _ _ Hpre Hr0) as (_ & Hnd & Hmem).
      split; [|split].
      * apply validate_Returns. exists idx, res. split; [|done].
        rewrite (merge_loop_snoc _ _ _ _ Hpre).
        by apply (merge_step_skip idx res b a pa pb).
      * by apply Hmem.
      * apply filter_key_unique; [done|]. by apply Hmem.
    + intros r Hr.
      pose proof Hr as (idx' & res' & Hl & _)%validate_Returns.
      destruct (validate_result _ _ _ _ Hl Hr) as (_ & Hnd & Hmem).
      rewrite Hgo in Hl.
      apply merge_loop_result in Hl as (added & -> & _).
      assert (a ∈ r) as Har by (apply Hmem; rewrite elem_of_app; auto).
      split; [done|]. by apply filter_key_unique.
  - apply validate_Raises.
    rewrite (merge_loop_app (l1 ++ a :: l2) (b :: l3)), Hpre. simpl.
    by rewrite (merge_step_conflict idx res b a pa pb Hpb Hib Hidx Ha Happrox).
Qed.

End MergeFacts.

(* ===================================================================== *)
(** ** The tolerance *)
(* ===================================================================== *)

Lemma dec_value_TOLERANCE : dec_value TOLERANCE = (1 # 10000)%Q.
Proof. reflexivity. Qed.

Lemma approx_equal_spec_le a b :
  approx_equal_spec a b TOLERANCE = true
  ↔ (Qabs (dec_value a - dec_value b) <= 1 # 10000)%Q.
Proof.
  unfold approx_equal_spec. rewrite dec_value_TOLERANCE. apply Qle_bool_iff.
Qed.

Lemma approx_equal_spec_gt a b :
  approx_equal_spec a b TOLERANCE = false
  ↔ (1 # 10000 < Qabs (dec_value a - dec_value b))%Q.
Proof.
  rewrite <- not_true_iff_false, approx_equal_spec_le.
  split; [apply Qnot_le_lt | apply Qlt_not_le].
Qed.

Lemma approx_equal_spec_refl p : approx_equal_spec p p TOLERANCE = true.
Proof.
  apply approx_equal_spec_le.
  assert (dec_value p - dec_value p == 0)%Q as -> by ring.
  done.
Qed.

(** The merge of two records with one key. *)
Lemma merge_pair approx_equal a b pa pb :
  key_of a = key_of b → isin_bool (isin a) = true →
  price a = Some pa → price b = Some pb →
  validate_and_remove_duplicates approx_equal [a; b]
  = if approx_equal pa pb TOLERANCE then Returns [a]
    else Raises (InvalidTransactionError b a).
Proof.
  intros Hkey Hi Ha Hb.
  assert (isin_bool (isin b) = true) as Hib.
  { unfold key_of in Hkey. by injection Hkey as <- _. }
  assert (is_set a = true) as Hsa by (apply is_set_spec; eauto).
  assert ((∅ : gmap _ EriTransaction) !! key_of a = None) as Hnone
    by apply lookup_empty.
  assert ((<[key_of a := a]> ∅ : gmap _ EriTransaction) !! key_of b = Some a)
    as Hidx by (rewrite <- Hkey; apply lookup_insert_eq).
  unfold validate_and_remove_duplicates. simpl.
  rewrite (merge_step_new approx_equal ∅ [] a Hsa Hnone). simpl.
  destruct (approx_equal pa pb TOLERANCE) eqn:E.
  - by rewrite (merge_step_skip approx_equal _ _ b a pa pb Hb Hib Hidx Ha E).
  - by rewrite (merge_step_conflict approx_equal _ _ b a pa pb Hb Hib Hidx Ha E).
Qed.

(** C3. With the helper as the spec describes it, two records with one
    key, the first with its ISIN set and both with a price: when the
    prices differ by 0.0001 or less the merge returns the first record
    alone and raises nothing; when they differ by more than 0.0001 it
    raises [InvalidTransactionError] with the second record and the first;
    a difference of exactly 0.0001 is on the silent side. *)
Theorem tolerance_boundary a b pa pb :
  key_of a = key_of b → isin_bool (isin a) = true →
  price a = Some pa → price b = Some pb →
  ((Qabs (dec_value pa - dec_value pb) <= 1 # 10000)%Q →
     validate_and_remove_duplicates approx_equal_spec [a; b] = Returns [a])
  ∧ ((1 # 10000 < Qabs (dec_value pa - dec_value pb))%Q →
       validate_and_remove_duplicates approx_equal_spec [a; b]
       = Raises (InvalidTransactionError b a))
  ∧ ((Qabs (dec_value pa - dec_value pb) == 1 # 10000)%Q →
       validate_and_remove_duplicates approx_equal_spec [a; b] = Returns [a]).
Proof.
  intros Hkey Hi Ha Hb.
  rewrite (merge_pair approx_equal_spec a b pa pb Hkey Hi Ha Hb).
  split; [|split].
  - intros H%approx_equal_spec_le. by rewrite H.
  - intros H%approx_equal_spec_gt. by rewrite H.
  - intros H.
    assert (approx_equal_spec pa pb TOLERANCE = true) as ->; [|done].
    apply approx_equal_spec_le. rewrite H. apply Qle_refl.
Qed.

(** C6. Idempotence of the import, with the helper as the spec describes
    it: when merging [incoming] into [existing] returns [store], merging
    [incoming] into [store] returns [store] again, the same records in the
    same order: merge (merge (E ++ I) ++ I) = merge (E ++ I). *)
Theorem merge_idempotent existing incoming store :
  validate_and_remove_duplicates approx_equal_spec (existing ++ incoming)
  = Returns store →
  validate_and_remove_duplicates approx_equal_spec (store ++ incoming)
  = Returns store.
Proof.
  apply merge_idempotent_gen. apply approx_equal_spec_refl.
Qed.

(* ===================================================================== *)
(** ** Importing one file *)
(* ===================================================================== *)

Section ImportFacts.

Variable approx_equal : Decimal → Decimal → Decimal → bool.
Variable resources_eri : string → string.
Variable read_eri_raw : string → World → Outcome (list EriTransaction).

Abbreviation import_parsed :=
  (import_parsed approx_equal resources_eri read_eri_raw).
Abbreviation parsers_loop :=
  (parsers_loop approx_equal resources_eri read_eri_raw).
Abbreviation eri_import_from_file :=
  (eri_import_from_file approx_equal resources_eri read_eri_raw).

(** The loop goes past the parsers that decline and stops at the first
    that accepts. *)
Lemma parsers_loop_accept before parser after path w w1 w2 data :
  all_decline path before w w1 →
  parse parser path w1 = (Returns (Some data), w2) →
  parsers_loop (before ++ parser :: after) path w
  = import_parsed parser data path w2.
Proof.
  intros Hbefore Hparse.
  induction Hbefore as [w|p rest w w' w'' Hp _ IH]; simpl.
  - by rewrite Hparse.
  - rewrite Hp. by apply IH.
Qed.

Lemma parsers_loop_decline parsers path w w1 :
  all_decline path parsers w w1 →
  parsers_loop parsers path w = (Returns (), print (NoParserFound path) w1).
Proof.
  induction 1 as [w|p rest w w' w'' Hp _ IH]; simpl; [done|].
  by rewrite Hp.
Qed.

Lemma eri_import_from_file_is_file parsers path w :
  is_file path w = true →
  eri_import_from_file parsers path w
  = parsers_loop parsers path (print (Processing path) w).
Proof.
  intros H. unfold eri_import_from_file. by rewrite H.
Qed.

(** The store is written on one path only: after the merge returned. *)
Lemma import_parsed_Raises parser data path w e :
  (import_parsed parser data path w).1 = Raises e →
  files (import_parsed parser data path w).2 = files w.
Proof.
  unfold import_parsed. simpl.
  destruct (read_eri_raw _ _) as [existing|e1]; [|done].
  by destruct (validate_and_remove_duplicates _ _).
Qed.

(** C2. When [parser] has accepted the file with [data], the store read
    back is [existing], and merging the records of [data] into it raises
    (the [InvalidTransactionError] of a conflict, or any other exception
    of the merge), the import of the file raises that exception and the
    files are what they were before the merge: no record of [data] is
    written, the store file is not opened for writing. The same holds for
    the whole import: it ends with the files as the accepting parser left
    them. *)
Theorem no_partial_merge parser data path w existing e :
  read_eri_raw (resources_eri (output_file_name data))
    (print (Parsed path (name parser) (length (transactions data))) w)
  = Returns existing →
  validate_and_remove_duplicates approx_equal (existing ++ transactions data)
  = Raises e →
  (import_parsed parser data path w).1 = Raises e
  ∧ files (import_parsed parser data path w).2 = files w
  ∧ (∀ before after w0 w1,
       is_file path w0 = true →
       all_decline path before (print (Processing path) w0) w1 →
       parse parser path w1 = (Returns (Some data), w) →
       (eri_import_from_file (before ++ parser :: after) path w0).1
       = Raises e
       ∧ files (eri_import_from_file (before ++ parser :: after) path w0).2
         = files w).
Proof.
  intros Hread Hmerge.
  assert (import_parsed parser data path w
          = (Raises e,
             print (Parsed path (name parser) (length (transactions data))) w))
    as Heq.
  { unfold import_parsed. simpl. by rewrite Hread, Hmerge. }
  split; [by rewrite Heq|]. split; [by rewrite Heq|].
  intros before after w0 w1 Hfile Hbefore Hparse.
  rewrite (eri_import_from_file_is_file _ _ _ Hfile).
  rewrite (parsers_loop_accept _ _ after _ _ _ _ _ Hbefore Hparse).
  by rewrite Heq.
Qed.

(** C7. The parsers are tried in the order of the list. When those before
    [parser] all decline and [parser] returns [data], the import goes on
    with [data] and with nothing else: its outcome and its effects do not
    depend on the parsers after [parser], which are not called. When every
    parser declines, the import prints the warning and returns normally,
    raising nothing and writing nothing of its own. *)
Theorem first_accepting_parser path w :
  is_file path w = true →
  (∀ before parser after w1 w2 data,
     all_decline path before (print (Processing path) w) w1 →
     parse parser path w1 = (Returns (Some data), w2) →
     eri_import_from_file (before ++ parser :: after) path w
     = import_parsed parser data path w2)
  ∧ (∀ parsers w1,
       all_decline path parsers (print (Processing path) w) w1 →
       eri_import_from_file parsers path w
       = (Returns (), print (NoParserFound path) w1)).
Proof.
  intros Hfile. split.
  - intros before parser after w1 w2 data Hbefore Hparse.
    rewrite (eri_import_from_file_is_file _ _ _ Hfile).
    by apply (parsers_loop_accept _ _ _ _ _ w1).
  - intros parsers w1 Hall.
    rewrite (eri_import_from_file_is_file _ _ _ Hfile).
    by apply parsers_loop_decline.
Qed.

(** A parser's output is true whatever it holds, so [assert data] never
    fails: after a parser that accepts with no record, the import goes on
    to read, merge and write. *)
Lemma import_parsed_no_records parser file_name path w existing merged :
  let data := mkEriParserOutput [] file_name in
  let w1 := print (Parsed path (name parser) 0) w in
  read_eri_raw (resources_eri file_name) w1 = Returns existing →
  validate_and_remove_duplicates approx_equal existing = Returns merged →
  import_parsed parser data path w
  = (Returns (), write_rows (resources_eri file_name) merged w1).
Proof.
  intros data w1 Hread Hmerge. unfold import_parsed. simpl.
  fold w1. by rewrite Hread, app_nil_r, Hmerge.
Qed.

End ImportFacts.

(* ===================================================================== *)
(** ** The spec's scenarios, run *)
(* ===================================================================== *)

Module Scenarios.

Import Sample.

Abbreviation merge := (validate_and_remove_duplicates approx_equal_spec).
Abbreviation import_file :=
  (eri_import_from_file approx_equal_spec resources_eri read_eri_raw_spec).
Abbreviation import_data :=
  (import_parsed approx_equal_spec resources_eri read_eri_raw_spec).

(** C8, on the code: a parser accepts the file and returns no record. The
    [assert data] passes, the console reports 0 transactions found, and
    the import returns normally after rewriting the store. *)
Theorem zero_records_import_succeeds :
  import_file [empty_handed] "broker.csv" world
  = (Returns (),
     {| files :=
          <["resources/eri/funds.csv"%string := Csv [HeaderRow; data_row gb0001]]>
            (files world);
        stdout := [Processing "broker.csv";
                   Parsed "broker.csv" "empty_handed" 0] |}).
Proof. vm_compute. reflexivity. Qed.

Lemma merge_record_cases_witness :
  merge_loop approx_equal_spec [gb0001] (∅, [])
  = Returns (<[key_of gb0001 := gb0001]> ∅, [gb0001])
  ∧ is_set gb0001_restated = true
  ∧ merge_loop approx_equal_spec
      ([gb0001] ++ gb0001_restated :: [gb0002]) (∅, [])
    = merge_loop approx_equal_spec [gb0002]
        (<[key_of gb0001 := gb0001]> ∅, [gb0001])
  ∧ merge ([gb0001] ++ [gb0001_restated]) = Returns [gb0001]
  ∧ merge ([gb0001] ++ gb0001_restated :: [gb0002])
    = merge ([gb0001] ++ [gb0002])
  ∧ filter (λ x, key_of x = key_of gb0001_restated) [gb0001; gb0002]
    = [gb0001].
Proof.
  assert (merge_loop approx_equal_spec [gb0001] (∅, [])
          = Returns (<[key_of gb0001 := gb0001]> ∅, [gb0001])) as H1
    by reflexivity.
  assert (is_set gb0001_restated = true) as H2 by reflexivity.
  split; [exact H1|]. split; [exact H2|].
  destruct (merge_record_cases approx_equal_spec
              [gb0001] gb0001_restated [gb0002] _ _ H1 H2) as (_ & _ & Hc).
  destruct (Hc gb0001) as (_ & _ & pc & p & Hpc & Hp & Hskip & _);
    [reflexivity|].
  injection Hpc as <-. injection Hp as <-.
  destruct Hskip as (Hgo & Hupto & Hsame & Hkept); [reflexivity|].
  split; [exact Hgo|]. split; [exact Hupto|]. split; [exact Hsame|].
  apply (Hkept [gb0001; gb0002]). reflexivity.
Defined.

Lemma tolerance_boundary_witness :
  key_of gb0001 = key_of gb0001_restated
  ∧ isin_bool (isin gb0001) = true
  ∧ (Qabs (dec_value (mkDecimal 12300 (-4))
            - dec_value (mkDecimal 12301 (-4))) == 1 # 10000)%Q
  ∧ merge [gb0001; gb0001_restated] = Returns [gb0001].
Proof.
  split; [reflexivity|]. split; [reflexivity|]. split; [reflexivity|].
  apply (tolerance_boundary gb0001 gb0001_restated
           (mkDecimal 12300 (-4)) (mkDecimal 12301 (-4)));
    reflexivity.
Defined.

Lemma merge_sorted_stable_witness :
  merge [gb0002; gb0001; gb0001_restated; gb0003]
  = Returns [gb0001; gb0003; gb0002]
  ∧ Sorted date_le [gb0001; gb0003; gb0002].
Proof.
  split; [reflexivity|].
  apply (merge_sorted_stable approx_equal_spec
           [gb0002; gb0001; gb0001_restated; gb0003]).
  reflexivity.
Defined.

Lemma merge_unique_keys_witness :
  merge [gb0002; gb0001; gb0001_restated; gb0003]
  = Returns [gb0001; gb0003; gb0002]
  ∧ NoDup (key_of <$> [gb0001; gb0003; gb0002]).
Proof.
  split; [reflexivity|].
  apply (merge_unique_keys approx_equal_spec
           [gb0002; gb0001; gb0001_restated; gb0003]).
  reflexivity.
Defined.

Lemma merge_idempotent_witness :
  merge ([gb0001] ++ [gb0002; gb0001_restated]) = Returns [gb0001; gb0002]
  ∧ merge ([gb0001; gb0002] ++ [gb0002; gb0001_restated])
    = Returns [gb0001; gb0002].
Proof.
  split; [reflexivity|].
  apply (merge_idempotent [gb0001]). reflexivity.
Defined.

Lemma unset_record_fails_fast_witness :
  is_set no_price = false
  ∧ merge ([gb0001] ++ no_price :: [gb0002])
    = Raises (AssertionError (PriceNotSet no_price)).
Proof.
  split; [reflexivity|].
  destruct (unset_record_fails_fast approx_equal_spec) as [Hfail _].
  destruct (Hfail [gb0001] no_price [gb0002]) as (_ & Hmerge & _);
    [reflexivity|].
  apply (Hmerge (<[key_of gb0001 := gb0001]> ∅, [gb0001])). reflexivity.
Defined.

Lemma duplicates_in_existing_witness :
  [gb0001; gb0002; gb0001_restated] ++ [gb0003]
  = [] ++ gb0001 :: [gb0002] ++ gb0001_restated :: [gb0003]
  ∧ key_of gb0001_restated = key_of gb0001
  ∧ is_set gb0001_restated = true
  ∧ merge ([gb0001; gb0002; gb0001_restated] ++ [gb0003])
    = merge ([] ++ gb0001 :: [gb0002] ++ [gb0003])
  ∧ gb0001 ∈ [gb0001; gb0003; gb0002]
  ∧ filter (λ x, key_of x = key_of gb0001) [gb0001; gb0003; gb0002]
    = [gb0001].
Proof.
  split; [reflexivity|]. split; [reflexivity|]. split; [reflexivity|].
  destruct (duplicates_in_existing approx_equal_spec
              [gb0001; gb0002; gb0001_restated] [gb0003]
              [] gb0001 [gb0002] gb0001_restated [gb0003]
              (<[key_of gb0002 := gb0002]> (<[key_of gb0001 := gb0001]> ∅),
               [gb0001; gb0002]))
    as (_ & pa & pb & Hpa & Hpb & Hskip & _).
  - reflexivity.
  - simpl. apply not_elem_of_nil.
  - reflexivity.
  - reflexivity.
  - reflexivity.
  - injection Hpa as <-. injection Hpb as <-.
    destruct Hskip as (Hsame & _ & Hkept); [reflexivity|].
    split; [exact Hsame|].
    apply (Hkept [gb0001; gb0003; gb0002]). reflexivity.
Defined.

Lemma no_partial_merge_witness :
  read_eri_raw_spec (resources_eri "funds.csv")
    (print (Parsed "broker.csv" "conflicting" 2) world)
  = Returns [gb0001]
  ∧ merge ([gb0001] ++ [gb0002; gb0001_conflict])
    = Raises (InvalidTransactionError gb0001_conflict gb0001)
  ∧ files (import_data conflicting
             (mkEriParserOutput [gb0002; gb0001_conflict] "funds.csv")
             "broker.csv" world).2
    = files world.
Proof.
  split; [reflexivity|]. split; [reflexivity|].
  apply (no_partial_merge approx_equal_spec resources_eri read_eri_raw_spec
           conflicting
           (mkEriParserOutput [gb0002; gb0001_conflict] "funds.csv")
           "broker.csv" world [gb0001]
           (InvalidTransactionError gb0001_conflict gb0001));
    reflexivity.
Defined.

Lemma first_accepting_parser_witness :
  is_file "broker.csv" world = true
  ∧ import_file [declining; accepting; loud] "broker.csv" world
    = import_data accepting
        (mkEriParserOutput [gb0002; gb0001_restated] "funds.csv")
        "broker.csv" (print (Processing "broker.csv") world)
  ∧ import_file [declining; declining] "broker.csv" world
    = (Returns (),
       print (NoParserFound "broker.csv")
         (print (Processing "broker.csv") world)).
Proof.
  assert (is_file "broker.csv" world = true) as Hfile by reflexivity.
  split; [exact Hfile|].
  destruct (first_accepting_parser approx_equal_spec resources_eri
              read_eri_raw_spec "broker.csv" world Hfile) as [Hacc Hdecl].
  split.
  - apply (Hacc [declining] accepting [loud]
             (print (Processing "broker.csv") world)).
    + eapply all_decline_cons; [reflexivity|apply all_decline_nil].
    + reflexivity.
  - apply Hdecl.
    eapply all_decline_cons; [reflexivity|].
    eapply all_decline_cons; [reflexivity|apply all_decline_nil].
Defined.

End Scenarios.

(* ===================================================================== *)
(** ** More on the merge: what it returns and what it raises *)
(* ===================================================================== *)

Section MergeMore.

Variable approx_equal : Decimal → Decimal → Decimal → bool.

Abbreviation merge_step := (merge_step approx_equal).
Abbreviation merge_loop := (merge_loop approx_equal).
Abbreviation validate_and_remove_duplicates :=
  (validate_and_remove_duplicates approx_equal).
Abbreviation consistent := (consistent approx_equal).

Implicit Types (idx : gmap (option string * Date.t) EriTransaction).
Implicit Types (res pre post ts : list EriTransaction).
Implicit Types (t cur : EriTransaction).

(** Every record the loop went past has its price and ISIN set. *)
Lemma merge_loop_all_set l st st' :
  merge_loop l st = Returns st' → Forall (λ t, is_set t = true) l.
Proof.
  revert st. induction l as [|t l IH]; intros [idx res]; simpl;
    [constructor|].
  intros ([idx1 res1] & Hstep & Hl)%bind_Returns_inv.
  constructor; [|eauto].
  apply merge_step_Returns in Hstep as (p & Hp & Hi & _).
  apply is_set_spec. eauto.
Qed.

(** A key that occurs in a list has a first record. *)
Lemma first_key_split (l : list EriTransaction) k :
  k ∈ key_of <$> l →
  ∃ l1 a l2, l = l1 ++ a :: l2 ∧ key_of a = k ∧ k ∉ key_of <$> l1.
Proof.
  induction l as [|t l IH]; simpl; [by intros ?%elem_of_nil|].
  intros Hin. destruct (decide (key_of t = k)) as [Heq|Hne].
  - exists [], t, l. split; [done|]. split; [done|]. apply not_elem_of_nil.
  - apply elem_of_cons in Hin as [?|Hin]; [congruence|].
    destruct (IH Hin) as (l1 & a & l2 & -> & Ha & Hfresh).
    exists (t :: l1), a, l2. split; [done|]. split; [done|].
    simpl. rewrite not_elem_of_cons. split; [congruence|done].
Qed.

(** The entry of the index under a key is the first record of the input
    with that key, and conversely. *)
Lemma merge_loop_index pre idx res k cur :
  merge_loop pre (∅, []) = Returns (idx, res) →
  idx !! k = Some cur ↔ key_of cur = k ∧ first_of_key cur pre.
Proof.
  intros Hpre. split.
  - intros Hk.
    pose proof (merge_loop_inv _ _ _ _ merge_inv_init Hpre) as [Hidx _ _].
    simpl in Hidx. pose proof Hk as [Hin Hkey]%Hidx. split; [done|].
    assert (k ∈ key_of <$> pre) as Hkin.
    { pose proof Hpre as (added & Hres & Hsub)%merge_loop_result.
      simpl in Hres. subst added. rewrite <- Hkey.
      apply list_elem_of_fmap_2. by eapply elem_of_sublist. }
    apply first_key_split in Hkin as (l1 & a & l2 & -> & Ha & Hfresh).
    subst k. rewrite <- Ha in Hfresh.
    pose proof (merge_loop_first_occurrence _ _ _ _ _ _ Hfresh Hpre)
      as [Hia _].
    rewrite Ha in Hia, Hfresh. rewrite Hia in Hk. injection Hk as ->.
    by exists l1, l2.
  - intros [<- (l1 & l2 & -> & Hfresh)].
    by apply (merge_loop_first_occurrence approx_equal l1 cur l2 idx res).
Qed.

(** [result] holds the first record of each key, and nothing else. *)
Lemma merge_loop_result_first pre idx res t :
  merge_loop pre (∅, []) = Returns (idx, res) →
  t ∈ res ↔ first_of_key t pre.
Proof.
  intros Hpre.
  pose proof (merge_loop_inv _ _ _ _ merge_inv_init Hpre) as [Hidx _ _].
  simpl in Hidx. split.
  - intros Hin.
    assert (idx !! key_of t = Some t) as Hk by by apply Hidx.
    by apply (merge_loop_index _ _ _ _ _ Hpre) in Hk as [_ ?].
  - intros Hfirst.
    assert (idx !! key_of t = Some t) as Hk
      by by apply (merge_loop_index _ _ _ _ _ Hpre).
    by apply Hidx in Hk as [? _].
Qed.

(** A loop that raises does so on a first record, after returning on the
    records before it. *)
Lemma merge_loop_first_failure l st e :
  merge_loop l st = Raises e →
  ∃ pre t post st1,
    l = pre ++ t :: post ∧ merge_loop pre st = Returns st1
    ∧ merge_step st1 t = Raises e.
Proof.
  revert st. induction l as [|t l IH]; intros st; simpl; [done|].
  destruct (merge_step st t) as [st1|e1] eqn:E; simpl.
  - intros (pre & t' & post & st2 & -> & Hpre & Hstep)%IH.
    exists (t :: pre), t', post, st2. split; [done|]. split; [|done].
    simpl. by rewrite E.
  - intros [= ->]. by exists [], t, l, st.
Qed.

(** The ways an iteration can raise. *)
Lemma merge_step_Raises idx res t e :
  merge_step (idx, res) t = Raises e →
  (is_set t = false
   ∧ e = AssertionError (match price t with
                         | None => PriceNotSet t
                         | Some _ => IsinNotSet t
                         end))
  ∨ (∃ cur p, is_set t = true ∧ price t = Some p
       ∧ idx !! key_of t = Some cur
       ∧ ((price cur = None ∧ e = AssertionError (CurrentPriceNotSet cur))
          ∨ (∃ pc, price cur = Some pc
               ∧ approx_equal pc p TOLERANCE = false
               ∧ e = InvalidTransactionError t cur))).
Proof.
  destruct (is_set t) eqn:Ht.
  - pose proof Ht as [[p Hp] Hi]%is_set_spec. intros Hstep. right.
    destruct (idx !! key_of t) as [cur|] eqn:Hk.
    + exists cur, p. do 3 (split; [done|]).
      destruct (price cur) as [pc|] eqn:Hc.
      * right. exists pc. split; [done|].
        destruct (approx_equal pc p TOLERANCE) eqn:Ha.
        -- by rewrite (merge_step_skip approx_equal idx res t cur pc p)
             in Hstep.
        -- rewrite (merge_step_conflict approx_equal idx res t cur pc p)
             in Hstep by done.
           by injection Hstep as <-.
      * left. split; [done|]. unfold merge_step in Hstep.
        rewrite Hp, Hi, Hk, Hc in Hstep. simpl in Hstep.
        by injection Hstep as <-.
    + by rewrite merge_step_new in Hstep.
  - rewrite merge_step_unset by done. intros [= <-]. by left.
Qed.

(** The assertion on the indexed record cannot fail: a loop that raises
    does so on a record that is not set, or on a conflict with the first
    record of the key. *)
Lemma merge_loop_Raises ts e :
  merge_loop ts (∅, []) = Raises e →
  ∃ pre t post st,
    ts = pre ++ t :: post ∧ merge_loop pre (∅, []) = Returns st
    ∧ ((is_set t = false
        ∧ e = AssertionError (match price t with
                              | None => PriceNotSet t
                              | Some _ => IsinNotSet t
                              end))
       ∨ (∃ cur pc p,
            e = InvalidTransactionError t cur
            ∧ key_of cur = key_of t ∧ first_of_key cur pre
            ∧ price cur = Some pc ∧ price t = Some p
            ∧ approx_equal pc p TOLERANCE = false)).
Proof.
  intros (pre & t & post & [idx res] & -> & Hpre & Hstep)
    %merge_loop_first_failure.
  exists pre, t, post, (idx, res). do 2 (split; [done|]).
  apply merge_step_Raises in Hstep
    as [?|(cur & p & Ht & Hp & Hk & Hcases)]; [by left|].
  right.
  pose proof (merge_loop_inv _ _ _ _ merge_inv_init Hpre) as [Hidx _ Hset].
  simpl in *.
  pose proof Hk as [Hkey Hfirst]%(merge_loop_index _ _ _ _ _ Hpre).
  assert (is_set cur = true) as [[pc Hc] _]%is_set_spec.
  { apply Hidx in Hk as [Hin _].
    by apply (proj1 (Forall_forall _ _) Hset). }
  destruct Hcases as [[Hnone _]|(pc' & Hc' & Ha & ->)]; [congruence|].
  exists cur, pc', p. by repeat split.
Qed.

(** X1. A successful merge returns exactly the first record of each key
    of its input: a record is returned if and only if no record before it
    in the input has its key; so the keys of the result are the keys of
    the input, none lost and none invented. *)
Theorem merge_returns_first_of_key ts r :
  validate_and_remove_duplicates ts = Returns r →
  (∀ t, t ∈ r ↔ first_of_key t ts)
  ∧ (∀ k, k ∈ key_of <$> r ↔ k ∈ key_of <$> ts).
Proof.
  intros (idx & res & Hl & ->)%validate_Returns.
  assert (∀ t, t ∈ sort_by_date res ↔ first_of_key t ts) as Hfirst.
  { intros t. rewrite SortFacts.sort_perm.
    by apply (merge_loop_result_first ts idx). }
  split; [done|]. intros k. split.
  - intros (t & -> & Hin)%list_elem_of_fmap.
    apply Hfirst in Hin as (l1 & l2 & -> & _).
    apply list_elem_of_fmap_2. rewrite elem_of_app, elem_of_cons. auto.
  - intros (l1 & a & l2 & -> & <- & Hfresh)%first_key_split.
    apply list_elem_of_fmap_2, Hfirst. by exists l1, l2.
Qed.

(** X2. The merge returns a list if and only if every record of the input
    has its price and ISIN set and every record that is not the first of
    its key has a price the helper accepts against the first one's. *)
Theorem merge_succeeds_iff ts :
  (∃ r, validate_and_remove_duplicates ts = Returns r)
  ↔ Forall (λ t, is_set t = true) ts ∧ consistent ts.
Proof.
  split.
  - intros [r (idx & res & Hl & ->)%validate_Returns]. split.
    + by eapply merge_loop_all_set.
    + intros l1 a l2 b l3 pa pb -> Hfresh Hkey Ha Hb.
      replace (l1 ++ a :: l2 ++ b :: l3) with ((l1 ++ a :: l2) ++ b :: l3)
        in Hl by by rewrite <- app_assoc.
      apply merge_loop_app_Returns in Hl as ([idx1 res1] & Hpre & Hl).
      simpl in Hl. apply bind_Returns_inv in Hl as (st2 & Hstep & _).
      pose proof (merge_loop_first_occurrence _ _ _ _ _ _ Hfresh Hpre)
        as [Hia _].
      apply merge_step_Returns in Hstep
        as (p & Hp & _ & [[Hnone _]|(cur & pc & Hk & Hc & Happ & _)]);
        congruence.
  - intros [Hset Hcons].
    assert (∀ pre post, ts = pre ++ post →
              ∃ st, merge_loop pre (∅, []) = Returns st) as Hprefix.
    { induction pre as [|t pre IH] using rev_ind; intros post Hts;
        [by exists (∅, [])|].
      rewrite <- app_assoc in Hts. simpl in Hts.
      destruct (IH _ Hts) as [[idx res] Hpre].
      rewrite (merge_loop_snoc _ _ _ _ _ Hpre).
      assert (is_set t = true) as Ht.
      { apply (proj1 (Forall_forall _ _) Hset). subst ts.
        rewrite elem_of_app, elem_of_cons. auto. }
      destruct (idx !! key_of t) as [cur|] eqn:Hk.
      - pose proof Hk as [Hkey (l1 & l2 & -> & Hfresh)]
          %(merge_loop_index _ _ _ _ _ Hpre).
        assert (is_set cur = true) as [[pc Hc] _]%is_set_spec.
        { apply (proj1 (Forall_forall _ _) Hset). subst ts.
          rewrite !elem_of_app, elem_of_cons. auto. }
        pose proof Ht as [[p Hp] Hi]%is_set_spec.
        rewrite <- app_assoc in Hts. simpl in Hts.
        exists (idx, res).
        apply (merge_step_skip approx_equal idx res t cur pc p);
          [done..|].
        by apply (Hcons l1 cur l2 t post).
      - eexists. by apply merge_step_new. }
    destruct (Hprefix ts [] ltac:(by rewrite app_nil_r)) as [[idx res] Hl].
    exists (sort_by_date res). apply validate_Returns. eauto.
Qed.

(** X3. An [InvalidTransactionError] names a real conflict: the record it
    carries first is a record of the input, the second is the first record
    of the input with the same key and stands before it, both have a
    price, the helper rejects the pair, and the records before the
    offending one merge without an exception. *)
Theorem conflict_is_real ts t cur :
  validate_and_remove_duplicates ts = Raises (InvalidTransactionError t cur) →
  ∃ l1 l2 l3 pc p,
    ts = l1 ++ cur :: l2 ++ t :: l3
    ∧ (key_of cur ∉ key_of <$> l1) ∧ key_of t = key_of cur
    ∧ price cur = Some pc ∧ price t = Some p
    ∧ approx_equal pc p TOLERANCE = false
    ∧ (∃ r, validate_and_remove_duplicates (l1 ++ cur :: l2) = Returns r).
Proof.
  intros (pre & t' & post & [idx res] & -> & Hpre & Hcases)
    %validate_Raises%merge_loop_Raises.
  destruct Hcases as [[_ ?]|(cur' & pc & p & He & Hkey & Hfirst & Hc & Hp & Ha)];
    [done|].
  injection He as -> ->. destruct Hfirst as (l1 & l2 & -> & Hfresh).
  exists l1, l2, post, pc, p.
  split; [by rewrite <- app_assoc|]. do 5 (split; [done|]).
  exists (sort_by_date res). apply validate_Returns. eauto.
Qed.

(** X4. The merge raises nothing but an [InvalidTransactionError] or the
    assertion of a record of the input that is not set, the first such
    record, with the records before it all set; the assertion on the
    indexed record ([CurrentPriceNotSet]) is never raised, whatever the
    input. *)
Theorem merge_exceptions ts e :
  validate_and_remove_duplicates ts = Raises e →
  (∃ t cur, e = InvalidTransactionError t cur)
  ∨ (∃ pre t post,
       ts = pre ++ t :: post
       ∧ Forall (λ t', is_set t' = true) pre
       ∧ is_set t = false
       ∧ e = AssertionError (match price t with
                             | None => PriceNotSet t
                             | Some _ => IsinNotSet t
                             end)).
Proof.
  intros (pre & t & post & st & -> & Hpre & Hcases)
    %validate_Raises%merge_loop_Raises.
  destruct Hcases as [[Ht ->]|(cur & pc & p & -> & _)]; [right|left; eauto].
  exists pre, t, post. split; [done|]. split; [|done].
  by eapply merge_loop_all_set.
Qed.

(** X5. An exception is final: when the merge of a list raises, the merge
    of that list followed by any further records raises the same
    exception. *)
Theorem merge_error_is_final ts more e :
  validate_and_remove_duplicates ts = Raises e →
  validate_and_remove_duplicates (ts ++ more) = Raises e.
Proof.
  intros Hl%validate_Raises. apply validate_Raises.
  by rewrite merge_loop_app, Hl.
Qed.

(** X6. The lists the merge returns unchanged are exactly the valid
    stores: no key twice, every price and ISIN set, dates in
    non-decreasing order. *)
Theorem merge_fixed_point ts :
  validate_and_remove_duplicates ts = Returns ts
  ↔ NoDup (key_of <$> ts) ∧ Forall (λ t, is_set t = true) ts
    ∧ Sorted date_le ts.
Proof.
  split.
  - intros Hm. pose proof Hm as (idx & res & Hl & Hts)%validate_Returns.
    pose proof (merge_loop_inv _ _ _ _ merge_inv_init Hl) as [_ Hnd _].
    simpl in Hnd. split; [|split].
    + by rewrite Hts, SortFacts.sort_perm.
    + by eapply merge_loop_all_set.
    + rewrite Hts. apply StronglySorted_Sorted, SortFacts.sort_sorted.
  - intros (Hnd & Hset & Hsorted).
    destruct (merge_loop_fresh approx_equal ts ∅ []) as [idx Hl];
      [apply merge_inv_init|done..|].
    simpl in Hl. apply validate_Returns. exists idx, ts. split; [done|].
    symmetry. apply SortFacts.sort_id.
    by apply Sorted_StronglySorted; [apply _|].
Qed.

(** X7. Merging into a store that has no key twice keeps every record of
    the store: each is returned as it is, the records returned besides
    come from the incoming ones, and the result is at least as long as
    the store and at most as long as the whole input. *)
Theorem merge_keeps_existing existing incoming r :
  NoDup (key_of <$> existing) →
  validate_and_remove_duplicates (existing ++ incoming) = Returns r →
  (∀ t, t ∈ existing → t ∈ r)
  ∧ (∀ t, t ∈ r → t ∈ existing ∨ t ∈ incoming)
  ∧ (length existing ≤ length r ≤ length existing + length incoming)%nat.
Proof.
  intros Hnd (idx & res & Hl & ->)%validate_Returns.
  assert (∀ t, t ∈ existing → t ∈ sort_by_date res) as Hkeep.
  { intros t (e1 & e2 & ->)%list_elem_of_split.
    rewrite SortFacts.sort_perm.
    apply (merge_loop_result_first _ _ _ _ Hl).
    exists e1, (e2 ++ incoming). split; [by rewrite <- app_assoc|].
    rewrite fmap_app in Hnd. simpl in Hnd.
    apply NoDup_app in Hnd as (_ & Hdisj & _).
    intros Hin. apply (Hdisj _ Hin). left. }
  pose proof Hl as (added & Hres & Hsub)%merge_loop_result.
  simpl in Hres. subst added.
  split; [done|]. split.
  - intros t Hin. rewrite SortFacts.sort_perm in Hin.
    apply elem_of_app. by eapply elem_of_sublist.
  - split.
    + apply submseteq_length, NoDup_submseteq; [|done].
      by eapply NoDup_fmap_1.
    + rewrite (Permutation_length (SortFacts.sort_perm res)).
      rewrite <- length_app. by apply sublist_length.
Qed.

(** An iteration looks at the index only: what [result] holds so far
    stays in front of what is appended. *)
Lemma merge_step_result_prefix idx res t :
  merge_step (idx, res) t
  = match merge_step (idx, []) t with
    | Returns (idx', added) => Returns (idx', res ++ added)
    | Raises e => Raises e
    end.
Proof.
  unfold merge_step. destruct (price t) as [p|]; [|done].
  destruct (negb (isin_bool (isin t))); [done|].
  destruct (idx !! key_of t) as [cur|]; [|done].
  destruct (price cur) as [pc|]; [|done].
  destruct (approx_equal pc p TOLERANCE); [|done].
  by rewrite app_nil_r.
Qed.

Lemma merge_loop_result_prefix l idx res :
  merge_loop l (idx, res)
  = match merge_loop l (idx, []) with
    | Returns (idx', added) => Returns (idx', res ++ added)
    | Raises e => Raises e
    end.
Proof.
  revert idx res. induction l as [|t l IH]; intros idx res; simpl;
    [by rewrite app_nil_r|].
  rewrite merge_step_result_prefix.
  destruct (merge_step (idx, []) t) as [[idx1 a]|e]; simpl; [|done].
  rewrite IH, (IH idx1 a).
  destruct (merge_loop l (idx1, [])) as [[idx2 a']|e]; [|done].
  by rewrite app_assoc.
Qed.

(** X15. Imports compose: when merging a first batch into a store
    returns, merging a second batch into what was returned gives what
    merging both batches at once into the original store gives, the same
    list in the same order or the same exception. *)
Theorem merge_in_steps existing first second store :
  validate_and_remove_duplicates (existing ++ first) = Returns store →
  validate_and_remove_duplicates (store ++ second)
  = validate_and_remove_duplicates ((existing ++ first) ++ second).
Proof.
  intros (idx & res & Hl & ->)%validate_Returns.
  pose proof (merge_loop_inv _ _ _ _ merge_inv_init Hl) as Hinv.
  pose proof (SortFacts.sort_perm res) as Hperm.
  destruct (merge_loop_fresh approx_equal (sort_by_date res) ∅ [])
    as [idx' Hs].
  { apply merge_inv_init. }
  { simpl. rewrite Hperm. apply Hinv. }
  { rewrite Hperm. apply Hinv. }
  simpl in Hs.
  assert (idx' = idx) as ->.
  { eapply merge_inv_index_eq; [| exact Hinv | exact Hperm].
    eapply merge_loop_inv; [apply merge_inv_init | exact Hs]. }
  unfold validate_and_remove_duplicates.
  rewrite (merge_loop_app _ (sort_by_date res) second), Hs.
  rewrite (merge_loop_app _ (existing ++ first) second), Hl. simpl.
  rewrite (merge_loop_result_prefix second idx (sort_by_date res)).
  rewrite (merge_loop_result_prefix second idx res).
  destruct (merge_loop second (idx, [])) as [[idx2 added]|e]; simpl;
    [|done].
  by rewrite SortFacts.sort_app_sort.
Qed.

End MergeMore.

(* ===================================================================== *)
(** ** More on the import of a file *)
(* ===================================================================== *)

Section ImportMore.

Variable approx_equal : Decimal → Decimal → Decimal → bool.
Variable resources_eri : string → string.
Variable read_eri_raw : string → World → Outcome (list EriTransaction).

Abbreviation import_parsed :=
  (import_parsed approx_equal resources_eri read_eri_raw).
Abbreviation parsers_loop :=
  (parsers_loop approx_equal resources_eri read_eri_raw).
Abbreviation eri_import_from_file :=
  (eri_import_from_file approx_equal resources_eri read_eri_raw).

(** The loop ends at the first parser that raises. *)
Lemma parsers_loop_raise before parser after path w w1 w2 e :
  all_decline path before w w1 →
  parse parser path w1 = (Raises e, w2) →
  parsers_loop (before ++ parser :: after) path w = (Raises e, w2).
Proof.
  intros Hbefore Hparse.
  induction Hbefore as [w|p rest w w' w'' Hp _ IH]; simpl.
  - by rewrite Hparse.
  - rewrite Hp. by apply IH.
Qed.

(** X8. An exception of a parser ends the import: when the parsers
    before it decline and [parse] raises, the import raises that
    exception, leaves the world as that parser left it (no warning is
    printed, no store is read or written) and calls no later parser. *)
Theorem parser_exception_propagates before parser after path w w1 w2 e :
  is_file path w = true →
  all_decline path before (print (Processing path) w) w1 →
  parse parser path w1 = (Raises e, w2) →
  eri_import_from_file (before ++ parser :: after) path w = (Raises e, w2).
Proof.
  intros Hfile Hbefore Hparse.
  rewrite (eri_import_from_file_is_file _ _ _ _ _ _ Hfile).
  by apply (parsers_loop_raise _ _ _ _ _ w1).
Qed.

(** X11. The base class's [parse] never declines: an import that reaches
    an [EriParser] whose [parse] is not overridden raises
    [NotImplementedError], whatever parsers come after it, and the world
    is as the declining parsers left it. *)
Theorem base_parser_never_declines before name after path w w1 :
  is_file path w = true →
  all_decline path before (print (Processing path) w) w1 →
  eri_import_from_file (before ++ EriParser_base name :: after) path w
  = (Raises (OtherError "NotImplementedError"), w1).
Proof.
  intros Hfile Hbefore.
  rewrite (eri_import_from_file_is_file _ _ _ _ _ _ Hfile).
  by apply (parsers_loop_raise _ _ _ _ _ w1).
Qed.

(** X9. Once a parser has accepted a file, the rest of the import touches
    one file at most, the store named by the parser's output: every other
    path holds what it held, no file disappears, the console only grows;
    and when the import returns, that store holds the header followed by
    the rows of the merge of what was read and what was parsed. *)
Theorem import_writes_one_file parser data path w :
  (∀ p, p ≠ resources_eri (output_file_name data) →
        files (import_parsed parser data path w).2 !! p = files w !! p)
  ∧ (∀ p, is_file p w = true →
          is_file p (import_parsed parser data path w).2 = true)
  ∧ stdout w `prefix_of` stdout (import_parsed parser data path w).2
  ∧ ((import_parsed parser data path w).1 = Returns () →
     ∃ existing merged,
       read_eri_raw (resources_eri (output_file_name data))
         (print (Parsed path (name parser) (length (transactions data))) w)
       = Returns existing
       ∧ validate_and_remove_duplicates approx_equal
           (existing ++ transactions data) = Returns merged
       ∧ files (import_parsed parser data path w).2
           !! resources_eri (output_file_name data)
         = Some (Csv (HeaderRow :: (data_row <$> merged)))).
Proof.
  unfold import_parsed. simpl.
  destruct (read_eri_raw _ _) as [existing|e1] eqn:Hread;
    [destruct (validate_and_remove_duplicates _ _) as [merged|e2] eqn:Hm|];
    simpl.
  - split; [|split; [|split]].
    + intros p Hp. by rewrite lookup_insert_ne.
    + intros p. unfold is_file. simpl.
      rewrite !bool_decide_eq_true, lookup_insert.
      case_decide; [by eexists|done].
    + by apply prefix_app_r.
    + intros _. exists existing, merged. do 2 (split; [done|]).
      apply lookup_insert_eq.
  - split; [done|]. split; [done|]. split; [by apply prefix_app_r|done].
  - split; [done|]. split; [done|]. split; [by apply prefix_app_r|done].
Qed.

(** X10. Importing the same parsed data twice leaves the files as the
    first import left them: when the first import returns, the helper
    accepts a price against itself, and the reader reads back the store
    that was just written, the second import returns too and writes the
    same store again. *)
Theorem import_twice_same_files parser data path w existing merged :
  (∀ p, approx_equal p p TOLERANCE = true) →
  read_eri_raw (resources_eri (output_file_name data))
    (print (Parsed path (name parser) (length (transactions data))) w)
  = Returns existing →
  validate_and_remove_duplicates approx_equal
    (existing ++ transactions data) = Returns merged →
  read_eri_raw (resources_eri (output_file_name data))
    (print (Parsed path (name parser) (length (transactions data)))
       (import_parsed parser data path w).2)
  = Returns merged →
  (import_parsed parser data path w).1 = Returns ()
  ∧ (import_parsed parser data path (import_parsed parser data path w).2).1
    = Returns ()
  ∧ files (import_parsed parser data path (import_parsed parser data path w).2).2
    = files (import_parsed parser data path w).2.
Proof.
  intros Hrefl Hread Hm.
  assert (import_parsed parser data path w
          = (Returns (),
             write_rows (resources_eri (output_file_name data)) merged
               (print (Parsed path (name parser)
                         (length (transactions data))) w))) as ->.
  { unfold import_parsed. simpl. by rewrite Hread, Hm. }
  simpl. intros Hread2. split; [done|].
  pose proof (merge_idempotent_gen approx_equal _ _ _ Hrefl Hm) as Hm2.
  unfold import_parsed. simpl. rewrite Hread2, Hm2. simpl.
  split; [done|]. apply insert_insert_eq.
Qed.

End ImportMore.

(* ===================================================================== *)
(** ** The installation check *)
(* ===================================================================== *)

(** The parents of a path are its strict prefixes. *)
Lemma parents_spec (q p : list string) :
  q ∈ parents p ↔ ∃ rest, rest ≠ [] ∧ p = q ++ rest.
Proof.
  unfold parents. rewrite list_elem_of_fmap. split.
  - intros (n & -> & Hn). rewrite elem_of_reverse, elem_of_seq in Hn.
    exists (drop n p). split; [|by rewrite take_drop].
    intros Hnil%drop_nil_inv. lia.
  - intros (rest & Hrest & ->). exists (length q).
    split; [by rewrite take_app_length|].
    rewrite elem_of_reverse, elem_of_seq, length_app.
    destruct rest; [done|]. simpl. lia.
Qed.

Lemma site_packages_loop_spec resolve current_file_path site_paths :
  site_packages_loop resolve current_file_path site_paths = true
  ↔ ∃ site_path, site_path ∈ site_paths
                 ∧ resolve site_path ∈ parents current_file_path.
Proof.
  induction site_paths as [|s l IH]; simpl.
  - split; [done|]. by intros (? & ?%elem_of_nil & _).
  - case_bool_decide as Hs.
    + split; [|done]. intros _. exists s. split; [left|done].
    + rewrite IH. split.
      * intros (s' & Hin & Hp). exists s'. split; [by right|done].
      * intros (s' & [->|Hin]%elem_of_cons & Hp); [done|eauto].
Qed.

(** The text after the last ["/"]. *)
Lemma path_name_from_slash acc dir rest :
  path_name_from acc (dir +:+ String "/" rest) = path_name_from "" rest.
Proof.
  revert acc. induction dir as [|c dir IH]; intros acc; simpl; [done|].
  destruct (Ascii.eqb c "/"); apply IH.
Qed.

Lemma string_app_snoc acc c rest :
  (acc +:+ String c "") +:+ rest = acc +:+ String c rest.
Proof.
  induction acc as [|a acc IH]; [done|].
  change (String a ((acc +:+ String c "") +:+ rest)
          = String a (acc +:+ String c rest)).
  by f_equal.
Qed.

Lemma path_name_from_no_slash acc file_name :
  no_slash file_name = true → path_name_from acc file_name = acc +:+ file_name.
Proof.
  revert acc. induction file_name as [|c rest IH]; intros acc; simpl.
  - intros _. induction acc as [|a acc IHacc]; [done|].
    change (String a acc = String a (acc +:+ "")). by f_equal.
  - intros [Hc Hrest]%andb_true_iff. apply negb_true_iff in Hc.
    rewrite Hc, IH by done. apply string_app_snoc.
Qed.

Section ImportPathFacts.

Variable approx_equal : Decimal → Decimal → Decimal → bool.
Variable resources_eri : string → string.
Variable read_eri_raw : string → World → Outcome (list EriTransaction).
Variable ERI_PARSERS : list EriParser.
Variable resolve : string → list string.
Variable module_file : string.
Variable getsitepackages : list string.
Variable ENABLE_USER_SITE : option bool.
Variable getusersitepackages : string.
Variable is_dir : string → World → bool.
Variable rglob : string → World → list string.
Variable isin_translation_file : string.

Abbreviation is_running_in_site_packages :=
  (is_running_in_site_packages resolve module_file getsitepackages
     ENABLE_USER_SITE getusersitepackages).
Abbreviation eri_import_from_file :=
  (eri_import_from_file approx_equal resources_eri read_eri_raw ERI_PARSERS).
Abbreviation import_subpaths :=
  (import_subpaths approx_equal resources_eri read_eri_raw ERI_PARSERS).
Abbreviation eri_import_from_path :=
  (eri_import_from_path approx_equal resources_eri read_eri_raw ERI_PARSERS
     resolve module_file getsitepackages ENABLE_USER_SITE getusersitepackages
     is_dir rglob isin_translation_file).

(** The loop over a listing in two parts is the loop over the first part
    and then, if it returned, over the second. *)
Lemma import_subpaths_app l1 l2 w :
  import_subpaths (l1 ++ l2) w
  = match import_subpaths l1 w with
    | (Returns _, w1) => import_subpaths l2 w1
    | (Raises e, w1) => (Raises e, w1)
    end.
Proof.
  revert w. induction l1 as [|f l1 IH]; intros w; simpl; [done|].
  destruct (is_file f w && negb (startswith_dot (path_name f))); [|apply IH].
  destruct (eri_import_from_file f w) as [[[]|e] w1]; [apply IH|done].
Qed.

(** X12. The import of a path is refused exactly when the resolved module
    file lies strictly below one of the resolved site directories: those
    of [getsitepackages()], and the user site directory when
    [ENABLE_USER_SITE] is [True] (not when it is [False] or [None]); a
    module file that resolves to a site directory itself is not inside
    it. A refused import raises its assertion before anything is printed,
    parsed or written. *)
Theorem import_refused_inside_installation path_str w :
  let inside :=
    ∃ site_path rest,
      (site_path ∈ getsitepackages
       ∨ (ENABLE_USER_SITE = Some true ∧ site_path = getusersitepackages))
      ∧ rest ≠ []
      ∧ resolve module_file = resolve site_path ++ rest in
  (is_running_in_site_packages = true ↔ inside)
  ∧ ((eri_import_from_path path_str w).1 = PathRaises InsideInstallation
     ↔ inside)
  ∧ (inside →
     eri_import_from_path path_str w = (PathRaises InsideInstallation, w)).
Proof.
  intros inside.
  assert (is_running_in_site_packages = true ↔ inside) as Hiff.
  { unfold is_running_in_site_packages, inside.
    rewrite site_packages_loop_spec. unfold site_packages_paths. split.
    - intros (s & Hin & (rest & Hrest & Heq)%parents_spec).
      exists s, rest. split; [|done].
      destruct ENABLE_USER_SITE as [[]|]; simpl in Hin; auto.
      apply elem_of_app in Hin as [?| ->%list_elem_of_singleton]; auto.
    - intros (s & rest & Hs & Hrest & Heq). exists s.
      split; [|apply parents_spec; eauto].
      destruct Hs as [Hin|[-> ->]]; simpl.
      + destruct ENABLE_USER_SITE as [[]|]; simpl; [|done..].
        apply elem_of_app. by left.
      + apply elem_of_app. right. by apply list_elem_of_singleton. }
  split; [done|]. rewrite <- Hiff. unfold eri_import_from_path.
  destruct is_running_in_site_packages; simpl.
  - split; [done|done].
  - split; [|done]. split; [|done].
    destruct (is_dir _ _);
      [destruct (import_subpaths _ _) as [[[]|e] w2]
      |destruct (eri_import_from_file _ _) as [[[]|e] w2]]; done.
Qed.

(** X13. In a directory, an entry whose own name starts with a dot is
    never imported: the loop over a listing is the loop over the listing
    without those entries. Only the last component of the path counts: a
    file whose name has no dot in front is imported also when a directory
    above it is hidden. *)
Theorem hidden_files_are_skipped subpaths w :
  import_subpaths subpaths w
  = import_subpaths
      (filter (λ p, startswith_dot (path_name p) = false) subpaths) w
  ∧ (∀ dir file_name,
       no_slash file_name = true →
       path_name (dir +:+ "/" +:+ file_name) = file_name).
Proof.
  split.
  - revert w. induction subpaths as [|f l IH]; intros w; [done|].
    rewrite filter_cons. case_decide as Hf; simpl.
    + destruct (is_file f w && negb (startswith_dot (path_name f)));
        [|apply IH].
      destruct (eri_import_from_file f w) as [[[]|e] w1]; [apply IH|done].
    + apply not_false_is_true in Hf. rewrite Hf, andb_false_r. apply IH.
  - intros dir file_name Hname. unfold path_name.
    change (dir +:+ "/" +:+ file_name) with (dir +:+ String "/" file_name).
    by rewrite path_name_from_slash, path_name_from_no_slash.
Qed.

(** X14. The import of a directory stops at the first file whose import
    raises: when the entries before it were gone through without an
    exception and the import of a visible file raises, the loop raises
    that exception in the world that import left, with what the earlier
    files wrote still written, and no later entry is looked at; the import
    of the path raises the same exception. *)
Theorem directory_import_stops_at_first_failure before f after w w1 w2 e :
  import_subpaths before w = (Returns (), w1) →
  is_file f w1 = true →
  startswith_dot (path_name f) = false →
  eri_import_from_file f w1 = (Raises e, w2) →
  import_subpaths (before ++ f :: after) w = (Raises e, w2)
  ∧ (∀ path_str w0,
       is_running_in_site_packages = false →
       w = print (Printed ("ERI data import mode activated from "
                           +:+ path_str)) w0 →
       is_dir path_str w = true →
       rglob path_str w = before ++ f :: after →
       eri_import_from_path path_str w0 = (PathRaises (FromFile e), w2)).
Proof.
  intros Hbefore Hfile Hvisible Himport.
  assert (import_subpaths (before ++ f :: after) w = (Raises e, w2)) as Hloop.
  { rewrite import_subpaths_app, Hbefore. simpl.
    by rewrite Hfile, Hvisible, Himport. }
  split; [done|].
  intros path_str w0 Hsite -> Hdir Hglob.
  unfold eri_import_from_path. rewrite Hsite. simpl.
  by rewrite Hdir, Hglob, Hloop.
Qed.

(** X16. In a directory, a file that no parser accepts does not stop the
    import: the warning is printed and the loop goes on with the entries
    after it, in the world the declining parsers left. *)
Theorem unrecognised_file_is_passed_over f rest w w1 :
  is_file f w = true →
  startswith_dot (path_name f) = false →
  all_decline f ERI_PARSERS (print (Processing f) w) w1 →
  import_subpaths (f :: rest) w
  = import_subpaths rest (print (NoParserFound f) w1).
Proof.
  intros Hfile Hvisible Hdecline. simpl. rewrite Hfile, Hvisible. simpl.
  rewrite (eri_import_from_file_is_file _ _ _ _ _ _ Hfile).
  by rewrite (parsers_loop_decline _ _ _ _ _ _ _ Hdecline).
Qed.

End ImportPathFacts.

(* ===================================================================== *)
(** ** Further scenarios, run *)
(* ===================================================================== *)

Module MoreScenarios.

Import Sample.

Abbreviation merge := (validate_and_remove_duplicates approx_equal_spec).
Abbreviation import_file :=
  (eri_import_from_file approx_equal_spec resources_eri read_eri_raw_spec).
Abbreviation import_data :=
  (import_parsed approx_equal_spec resources_eri read_eri_raw_spec).
Abbreviation import_listing :=
  (import_subpaths approx_equal_spec resources_eri read_eri_raw_spec).
Abbreviation import_path :=
  (eri_import_from_path approx_equal_spec resources_eri read_eri_raw_spec).

Lemma merge_returns_first_of_key_witness :
  merge [gb0002; gb0001; gb0001_restated; gb0003]
  = Returns [gb0001; gb0003; gb0002]
  ∧ first_of_key gb0001 [gb0002; gb0001; gb0001_restated; gb0003]
  ∧ ¬ first_of_key gb0001_restated
        [gb0002; gb0001; gb0001_restated; gb0003].
Proof.
  assert (merge [gb0002; gb0001; gb0001_restated; gb0003]
          = Returns [gb0001; gb0003; gb0002]) as Hm by reflexivity.
  split; [exact Hm|].
  destruct (merge_returns_first_of_key approx_equal_spec _ _ Hm)
    as [Hfirst _].
  split.
  - apply Hfirst. left.
  - intros Hin%Hfirst.
    repeat (apply elem_of_cons in Hin as [Heq|Hin]; [discriminate Heq|]).
    by apply elem_of_nil in Hin.
Defined.

Lemma merge_succeeds_iff_witness :
  Forall (λ t, is_set t = true) [gb0002; gb0001; gb0001_restated]
  ∧ consistent approx_equal_spec [gb0002; gb0001; gb0001_restated].
Proof.
  apply (merge_succeeds_iff approx_equal_spec).
  exists [gb0001; gb0002]. reflexivity.
Defined.

Lemma conflict_is_real_witness :
  merge [gb0002; gb0001; gb0001_conflict]
  = Raises (InvalidTransactionError gb0001_conflict gb0001)
  ∧ ∃ l1 l2 l3 pc p,
      [gb0002; gb0001; gb0001_conflict]
      = l1 ++ gb0001 :: l2 ++ gb0001_conflict :: l3
      ∧ (key_of gb0001 ∉ key_of <$> l1)
      ∧ key_of gb0001_conflict = key_of gb0001
      ∧ price gb0001 = Some pc ∧ price gb0001_conflict = Some p
      ∧ approx_equal_spec pc p TOLERANCE = false
      ∧ (∃ r, merge (l1 ++ gb0001 :: l2) = Returns r).
Proof.
  split; [reflexivity|].
  apply (conflict_is_real approx_equal_spec). reflexivity.
Defined.

Lemma merge_exceptions_witness :
  merge [gb0001; no_price; gb0002]
  = Raises (AssertionError (PriceNotSet no_price))
  ∧ ((∃ t cur, AssertionError (PriceNotSet no_price)
               = InvalidTransactionError t cur)
     ∨ (∃ pre t post,
          [gb0001; no_price; gb0002] = pre ++ t :: post
          ∧ Forall (λ t', is_set t' = true) pre
          ∧ is_set t = false
          ∧ AssertionError (PriceNotSet no_price)
            = AssertionError (match price t with
                              | None => PriceNotSet t
                              | Some _ => IsinNotSet t
                              end))).
Proof.
  split; [reflexivity|].
  apply (merge_exceptions approx_equal_spec). reflexivity.
Defined.

Lemma merge_error_is_final_witness :
  merge [gb0001; gb0001_conflict]
  = Raises (InvalidTransactionError gb0001_conflict gb0001)
  ∧ merge ([gb0001; gb0001_conflict] ++ [gb0002])
    = Raises (InvalidTransactionError gb0001_conflict gb0001).
Proof.
  split; [reflexivity|].
  apply (merge_error_is_final approx_equal_spec). reflexivity.
Defined.

Lemma merge_fixed_point_witness :
  merge [gb0001; gb0003; gb0002] = Returns [gb0001; gb0003; gb0002]
  ∧ NoDup (key_of <$> [gb0001; gb0003; gb0002])
  ∧ Forall (λ t, is_set t = true) [gb0001; gb0003; gb0002]
  ∧ Sorted date_le [gb0001; gb0003; gb0002].
Proof.
  split; [reflexivity|].
  apply (merge_fixed_point approx_equal_spec). reflexivity.
Defined.

Lemma merge_keeps_existing_witness :
  NoDup (key_of <$> [gb0001])
  ∧ merge ([gb0001] ++ [gb0002; gb0001_restated]) = Returns [gb0001; gb0002]
  ∧ (∀ t, t ∈ [gb0001] → t ∈ [gb0001; gb0002]).
Proof.
  assert (NoDup (key_of <$> [gb0001])) as Hnd by apply NoDup_singleton.
  split; [exact Hnd|]. split; [reflexivity|].
  apply (merge_keeps_existing approx_equal_spec
           [gb0001] [gb0002; gb0001_restated] [gb0001; gb0002] Hnd).
  reflexivity.
Defined.

Lemma parser_exception_propagates_witness :
  is_file "broker.csv" world = true
  ∧ import_file [declining; loud; accepting] "broker.csv" world
    = (Raises (OtherError "loud"),
       print (Printed "loud ran") (print (Processing "broker.csv") world)).
Proof.
  split; [reflexivity|].
  apply (parser_exception_propagates approx_equal_spec resources_eri
           read_eri_raw_spec [declining] loud [accepting] "broker.csv" world
           (print (Processing "broker.csv") world)).
  - reflexivity.
  - eapply all_decline_cons; [reflexivity|apply all_decline_nil].
  - reflexivity.
Defined.

Lemma base_parser_never_declines_witness :
  is_file "broker.csv" world = true
  ∧ import_file [declining; EriParser_base "base"; accepting]
      "broker.csv" world
    = (Raises (OtherError "NotImplementedError"),
       print (Processing "broker.csv") world).
Proof.
  split; [reflexivity|].
  apply (base_parser_never_declines approx_equal_spec resources_eri
           read_eri_raw_spec [declining] "base" [accepting]).
  - reflexivity.
  - eapply all_decline_cons; [reflexivity|apply all_decline_nil].
Defined.

Lemma import_writes_one_file_witness :
  files (import_data accepting
           (mkEriParserOutput [gb0002; gb0001_restated] "funds.csv")
           "broker.csv" world).2 !! "broker.csv"
  = files world !! "broker.csv".
Proof.
  apply (import_writes_one_file approx_equal_spec resources_eri
           read_eri_raw_spec accepting
           (mkEriParserOutput [gb0002; gb0001_restated] "funds.csv")).
  discriminate.
Defined.

Lemma import_twice_same_files_witness :
  files (import_data accepting
           (mkEriParserOutput [gb0002; gb0001_restated] "funds.csv")
           "broker.csv"
           (import_data accepting
              (mkEriParserOutput [gb0002; gb0001_restated] "funds.csv")
              "broker.csv" world).2).2
  = files (import_data accepting
             (mkEriParserOutput [gb0002; gb0001_restated] "funds.csv")
             "broker.csv" world).2.
Proof.
  apply (import_twice_same_files approx_equal_spec resources_eri
           read_eri_raw_spec accepting
           (mkEriParserOutput [gb0002; gb0001_restated] "funds.csv")
           "broker.csv" world [gb0001] [gb0001; gb0002]).
  - apply approx_equal_spec_refl.
  - reflexivity.
  - reflexivity.
  - reflexivity.
Defined.

Import SamplePaths.

Lemma import_refused_inside_installation_witness :
  import_path [accepting] resolve installed_module [site_dir] None
    user_site_dir is_dir rglob "isin.csv" "in" tree
  = (PathRaises InsideInstallation, tree)
  ∧ (import_path [accepting] resolve site_dir [site_dir] None
       user_site_dir is_dir rglob "isin.csv" "in" tree).1
    ≠ PathRaises InsideInstallation.
Proof.
  split.
  - apply (import_refused_inside_installation approx_equal_spec
             Sample.resources_eri read_eri_raw_spec [accepting] resolve
             installed_module [site_dir] None user_site_dir is_dir rglob
             "isin.csv" "in" tree).
    exists site_dir, ["cgt_calc"; "parsers"; "eri"; "data_import.py"]%string.
    split; [left; left|]. split; [discriminate|reflexivity].
  - intros Hraised.
    apply (import_refused_inside_installation approx_equal_spec
             Sample.resources_eri read_eri_raw_spec [accepting] resolve
             site_dir [site_dir] None user_site_dir is_dir rglob
             "isin.csv" "in" tree) in Hraised.
    destruct Hraised as (s & rest & [Hs|[Hflag _]] & Hrest & Heq);
      [|discriminate Hflag].
    apply list_elem_of_singleton in Hs as ->.
    apply (f_equal length) in Heq. rewrite length_app in Heq.
    destruct rest; [done|]. simpl in Heq. lia.
Defined.

Lemma hidden_files_are_skipped_witness :
  import_listing [accepting] (rglob "in" tree) tree
  = import_listing [accepting] ["in/.cache"; "in/.cache/b.csv"; "in/a.csv"]
      tree
  ∧ path_name ("in/.cache" +:+ "/" +:+ "b.csv") = "b.csv".
Proof.
  split.
  - apply (hidden_files_are_skipped approx_equal_spec Sample.resources_eri
             read_eri_raw_spec [accepting] (rglob "in" tree) tree).
  - by apply (hidden_files_are_skipped approx_equal_spec
                Sample.resources_eri read_eri_raw_spec [accepting] [] tree).
Defined.

Lemma directory_import_stops_at_first_failure_witness :
  import_listing [conflicting] ["in/.hidden.csv"] tree = (Returns (), tree)
  ∧ is_file "in/a.csv" tree = true
  ∧ (import_file [conflicting] "in/a.csv" tree).1
    = Raises (InvalidTransactionError gb0001_conflict gb0001)
  ∧ import_listing [conflicting]
      (["in/.hidden.csv"] ++ "in/a.csv" :: ["in/.cache/b.csv"]) tree
    = (Raises (InvalidTransactionError gb0001_conflict gb0001),
       (import_file [conflicting] "in/a.csv" tree).2).
Proof.
  split; [reflexivity|]. split; [reflexivity|]. split; [reflexivity|].
  apply (directory_import_stops_at_first_failure approx_equal_spec
           Sample.resources_eri read_eri_raw_spec [conflicting] resolve
           repository_module [site_dir] None user_site_dir is_dir rglob
           "isin.csv" ["in/.hidden.csv"] "in/a.csv" ["in/.cache/b.csv"]
           tree tree);
    reflexivity.
Defined.

Lemma merge_in_steps_witness :
  merge ([gb0002] ++ [gb0001]) = Returns [gb0001; gb0002]
  ∧ merge ([gb0001; gb0002] ++ [gb0003; gb0001_restated])
    = merge (([gb0002] ++ [gb0001]) ++ [gb0003; gb0001_restated]).
Proof.
  split; [reflexivity|].
  apply (merge_in_steps approx_equal_spec). reflexivity.
Defined.

Lemma unrecognised_file_is_passed_over_witness :
  is_file "in/a.csv" tree = true
  ∧ import_listing [declining] ["in/a.csv"; "in/.cache/b.csv"] tree
    = import_listing [declining] ["in/.cache/b.csv"]
        (print (NoParserFound "in/a.csv")
           (print (Processing "in/a.csv") tree)).
Proof.
  split; [reflexivity|].
  apply (unrecognised_file_is_passed_over approx_equal_spec
           Sample.resources_eri read_eri_raw_spec [declining]).
  - reflexivity.
  - reflexivity.
  - eapply all_decline_cons; [reflexivity|apply all_decline_nil].
Defined.

End MoreScenarios.
